(** * go-kcl: a polling Kinesis consumer and its position store

    A shallow embedding of [kinesis.go] (stream handle, seeding, poll loop)
    and of the store file ([Store], [LocalStore]).

    - Go strings are byte strings: [string].
    - A Go [*string] is an [option string]; [aws.String] and
      [aws.StringValue] convert between the two.
    - A Go [error] is [option string]: [None] is [nil], [Some msg] an error
      value with its message.
    - A Go [map[string]string] is a [gmap string string]; indexing a missing
      key yields the zero value, the empty string. *)

From Stdlib Require Import ZArith List.
From stdpp Require Import gmap strings list.
Import ListNotations.
Set Warnings "-clear-no-such-hyp".

Local Open Scope string_scope.
Local Open Scope list_scope.

(** ** Go values *)

Definition error : Type := option string.

Module aws.

(** [aws.String(v)]: a pointer to [v]. *)
Definition String (v : string) : option string := Some v.

(** [aws.StringValue(p)]: the pointed value, or the empty string for [nil]. *)
Definition StringValue (p : option string) : string :=
match p with Some v => v | None => "" end.

(** [aws.Int64(v)]: a pointer to [v]. *)
Definition Int64 (v : Z) : option Z := Some v.

End aws.

(** ** Iterator types (kinesis.go, the [const] block) *)

Definition IteratorTypeAtSequenceNumber : string := "AT_SEQUENCE_NUMBER".
Definition IteratorTypeAfterSequenceNumber : string := "AFTER_SEQUENCE_NUMER".
Definition IteratorTypeAtTimestamp : string := "AT_TIMESTAMP".
Definition IteratorTypeTrimHorizon : string := "TRIM_HORIZON".
Definition IteratorTypeLatest : string := "LATEST".

(** The five initial-position policies of the data model. *)
Inductive Policy : Type :=
| Latest
| TrimHorizon
| AtSequenceNumber
| AfterSequenceNumber
| AtTimestamp.

(** The constant the package exports for each policy. *)
Definition exportedConstant (p : Policy) : string :=
match p with
| Latest => IteratorTypeLatest
| TrimHorizon => IteratorTypeTrimHorizon
| AtSequenceNumber => IteratorTypeAtSequenceNumber
| AfterSequenceNumber => IteratorTypeAfterSequenceNumber
| AtTimestamp => IteratorTypeAtTimestamp
end.

(** Modelled from the spec: the policy identifiers the remote service
    recognises in [GetShardIteratorInput.ShardIteratorType]. The service
    client is an external library; the identifiers are the ones the
    package documentation lists under "Iterator Types" and the one the
    specification names for the after-sequence-number policy. *)
Definition serviceIdentifier (p : Policy) : string :=
match p with
| Latest => "LATEST"
| TrimHorizon => "TRIM_HORIZON"
| AtSequenceNumber => "AT_SEQUENCE_NUMBER"
| AfterSequenceNumber => "AFTER_SEQUENCE_NUMBER"
| AtTimestamp => "AT_TIMESTAMP"
end.

(** ** The store interface and the local store *)

(** [type Store interface]: both methods may fail and may change the
    backing medium, so each takes and returns the store's state. *)
Class Store (St : Type) : Type := {
  GetShardIterator : string -> string -> St -> (string * error) * St;
  UpdateShardIterator : string -> string -> string -> St -> error * St
}.

(** [fmt.Sprintf("%s-%s", stream, shard)] *)
Definition key (stream shard : string) : string :=
stream +:+ "-" +:+ shard.

Module LocalStore.

(** [type LocalStore struct]. In a run with a single goroutine the mutex
    is free whenever a method is entered and released again when it
    returns (the deferred [Unlock]), so the sequential state is the map
    alone; the lock itself is modelled in [Concurrent] below. *)
Record t : Type := { m : gmap string string }.

Definition UpdateShardIterator (stream shard iterator : string) (s : t)
  : error * t :=
let k := key stream shard in
(None, {| m := <[k := iterator]> (m s) |}).

Definition GetShardIterator (stream shard : string) (s : t)
  : (string * error) * t :=
let k := key stream shard in
((default "" (m s !! k), None), s).

End LocalStore.

Definition NewLocalStore : LocalStore.t := {| LocalStore.m := ∅ |}.

#[export] Instance LocalStore_Store : Store LocalStore.t := {
  GetShardIterator := LocalStore.GetShardIterator;
  UpdateShardIterator := LocalStore.UpdateShardIterator
}.

(** A history of writes applied in order to a local store. *)
Definition applyUpdates (ops : list (string * string * string))
  (s : LocalStore.t) : LocalStore.t :=
fold_left (fun acc '(stream, shard, iterator) =>
             snd (LocalStore.UpdateShardIterator stream shard iterator acc))
          ops s.

Definition pair_eqb (a b : string * string) : bool :=
bool_decide (a = b).

(** The value most recently written for the pair [(stream, shard)] in a
    history, if the pair was written at all. *)
Fixpoint lastWritten (ops : list (string * string * string))
  (stream shard : string) : option string :=
match ops with
| [] => None
| (st, sh, it) :: rest =>
    match lastWritten rest stream shard with
    | Some v => Some v
    | None => if pair_eqb (st, sh) (stream, shard) then Some it else None
    end
end.

(** ** The local store under concurrent callers

    Each method body of [LocalStore] as the sequence of its atomic steps on
    the shared struct: the mutex operations and the accesses to the map. *)

Module Concurrent.

Inductive action : Type :=
| Lock                          (* s.mutex.Lock() *)
| Unlock                        (* the deferred s.mutex.Unlock() *)
| MapAssign (k v : string)      (* s.m[key] = iterator *)
| MapIndex (k : string).        (* s.m[key] *)

Definition UpdateShardIterator (stream shard iterator : string)
  : list action :=
[Lock; MapAssign (key stream shard) iterator; Unlock].

Definition GetShardIterator (stream shard : string) : list action :=
[MapIndex (key stream shard)].

(** The shared struct, the remaining steps of every goroutine, and the
    values the goroutines have read so far. *)
Record config : Type := {
  m : gmap string string;
  mutex : bool;
  goroutines : list (list action);
  reads : list (nat * string)
}.

(** Goroutine [i] performs its next step. [None]: it has finished, it is
    blocked on the held mutex, or it unlocks a mutex nobody holds. *)
Definition step (i : nat) (c : config) : option config :=
match goroutines c !! i with
| Some (a :: rest) =>
    let gs := <[i := rest]> (goroutines c) in
    match a with
    | Lock =>
        if mutex c then None
        else Some {| m := m c; mutex := true; goroutines := gs;
                     reads := reads c |}
    | Unlock =>
        if mutex c
        then Some {| m := m c; mutex := false; goroutines := gs;
                     reads := reads c |}
        else None
    | MapAssign k v =>
        Some {| m := <[k := v]> (m c); mutex := mutex c; goroutines := gs;
                reads := reads c |}
    | MapIndex k =>
        Some {| m := m c; mutex := mutex c; goroutines := gs;
                reads := reads c ++ [(i, default "" (m c !! k))] |}
    end
| _ => None
end.

Fixpoint run (schedule : list nat) (c : config) : option config :=
match schedule with
| [] => Some c
| i :: rest =>
    match step i c with
    | Some c' => run rest c'
    | None => None
    end
end.

Definition next (i : nat) (c : config) : option action :=
match goroutines c !! i with
| Some (a :: _) => Some a
| _ => None
end.

Definition mapAccess (a : action) : bool :=
match a with MapAssign _ _ | MapIndex _ => true | _ => false end.

Definition mapWrite (a : action) : bool :=
match a with MapAssign _ _ => true | _ => false end.

(** Two accesses to the one map conflict when at least one of them
    writes: a Go map tolerates concurrent readers only. *)
Definition conflict (a b : action) : bool :=
mapAccess a && mapAccess b && (mapWrite a || mapWrite b).

(** A data race: two different goroutines are both about to touch the map,
    one of them writing, and nothing orders the two accesses. *)
Definition race (c : config) : Prop :=
exists i j a b,
  i <> j /\ next i c = Some a /\ next j c = Some b /\ conflict a b = true.

Definition start (store : LocalStore.t) (gs : list (list action)) : config :=
{| m := LocalStore.m store; mutex := false; goroutines := gs; reads := [] |}.

Definition raceFree (store : LocalStore.t) (gs : list (list action)) : Prop :=
forall schedule c, run schedule (start store gs) = Some c -> ~ race c.

(** Every step that touches the map is taken while the mutex is held by
    the goroutine taking it. *)
Fixpoint guarded (held : bool) (body : list action) : bool :=
match body with
| [] => true
| Lock :: rest => guarded true rest
| Unlock :: rest => guarded false rest
| a :: rest => (negb (mapAccess a) || held) && guarded held rest
end.

(** Where a goroutine stands in [UpdateShardIterator]. *)
Inductive pc : Type := AtLock | AtAssign | AtUnlock | Finished.

Definition remaining (body : list action) (p : pc) : list action :=
match p with
| AtLock => body
| AtAssign => drop 1 body
| AtUnlock => drop 2 body
| Finished => []
end.

Definition inCritical (p : pc) : bool :=
match p with AtAssign | AtUnlock => true | _ => false end.

(** Two goroutines in [UpdateShardIterator]: the mutex is held exactly
    while one of them is between its [Lock] and its [Unlock], and never
    both are. *)
Definition writersInvariant (body0 body1 : list action) (c : config) : Prop :=
exists p0 p1,
  goroutines c = [remaining body0 p0; remaining body1 p1]
  /\ mutex c = (inCritical p0 || inCritical p1)
  /\ (inCritical p0 && inCritical p1) = false.

(** The goroutine has done its map assignment. *)
Definition hasWritten (p : pc) : bool :=
match p with AtUnlock | Finished => true | _ => false end.

(** The map two writers have produced from [m0], given where they stand:
    the assignments done so far, in one of the two orders when both are
    done. *)
Definition writersMap (m0 : gmap string string) (k0 v0 k1 v1 : string)
  (p0 p1 : pc) (m : gmap string string) : Prop :=
match hasWritten p0, hasWritten p1 with
| false, false => m = m0
| true, false => m = <[k0 := v0]> m0
| false, true => m = <[k1 := v1]> m0
| true, true =>
    m = <[k1 := v1]> (<[k0 := v0]> m0) \/ m = <[k0 := v0]> (<[k1 := v1]> m0)
end.

Definition writersState (m0 : gmap string string) (k0 v0 k1 v1 : string)
  (c : config) : Prop :=
exists p0 p1,
  goroutines c
  = [remaining [Lock; MapAssign k0 v0; Unlock] p0;
     remaining [Lock; MapAssign k1 v1; Unlock] p1]
  /\ mutex c = (inCritical p0 || inCritical p1)
  /\ (inCritical p0 && inCritical p1) = false
  /\ writersMap m0 k0 v0 k1 v1 p0 p1 (m c).

(** Every goroutine has only map reads left. *)
Definition onlyReads (c : config) : Prop :=
Forall (Forall (fun a => exists k, a = MapIndex k)) (goroutines c).

End Concurrent.

(** ** The remote service (the part of the SDK's kinesis package in use) *)

Module kinesis.

Module Record.
Record t : Type := {
  SequenceNumber : option string;
  PartitionKey : option string;
  Data : string
}.
End Record.

Module SequenceNumberRange.
Record t : Type := { StartingSequenceNumber : option string }.
End SequenceNumberRange.

Module Shard.
Record t : Type := {
  ShardId : option string;
  SequenceNumberRange : option SequenceNumberRange.t
}.
End Shard.

Module StreamDescription.
Record t : Type := { Shards : list Shard.t }.
End StreamDescription.

Module DescribeStreamInput.
Record t : Type := { StreamName : option string }.
End DescribeStreamInput.

Module DescribeStreamOutput.
Record t : Type := { StreamDescription : option StreamDescription.t }.
End DescribeStreamOutput.

Module GetShardIteratorInput.
Record t : Type := {
  ShardId : option string;
  ShardIteratorType : option string;
  StreamName : option string
}.
End GetShardIteratorInput.

Module GetShardIteratorOutput.
Record t : Type := { ShardIterator : option string }.
End GetShardIteratorOutput.

Module GetRecordsInput.
Record t : Type := {
  Limit : option Z;
  ShardIterator : option string
}.
End GetRecordsInput.

Module GetRecordsOutput.
Record t : Type := {
  Records : list Record.t;
  NextShardIterator : option string
}.
End GetRecordsOutput.

(** The three calls the package makes. The service is outside the
    program: [Svc] is whatever state decides its answers, and every call
    returns the response, the error and the service's new state. *)
Class API (Svc : Type) : Type := {
  DescribeStream :
    DescribeStreamInput.t -> Svc -> (DescribeStreamOutput.t * error) * Svc;
  GetShardIterator :
    GetShardIteratorInput.t -> Svc
    -> (GetShardIteratorOutput.t * error) * Svc;
  GetRecords :
    GetRecordsInput.t -> Svc -> (GetRecordsOutput.t * error) * Svc
}.

End kinesis.

(** ** Stream handle (kinesis.go) *)

(** [type Config struct]. [Interval] is a [time.Duration], a count of
    nanoseconds; [Limit] is an [int64]. The program only passes both on. *)
Record Config : Type := {
  Interval : Z;
  IteratorType : string;
  Limit : Z
}.

Record Shard : Type := {
  ID : string;
  StartAt : string
}.

(** [type Stream struct]. The fields [svc] and [store] are references to
    the service client and to the store; what they refer to lives in the
    [World] below, so that every call through them acts on the one shared
    service and the one shared store. [Logger.Log] returns an error that
    no call site looks at. *)
Record Stream : Type := {
  Shards : list Shard;
  Logger : list string -> error;
  config : Config;
  Name : string
}.

Definition noOpLogger : list string -> error := fun _ => None.

(** What the program does to the outside, in the order it does it. The
    [shard] of [EvGetRecords] is the shard being polled; the request
    itself carries the iterator and the limit only. *)
Inductive Event : Type :=
| EvDescribeStream (input : kinesis.DescribeStreamInput.t)
                   (resp : kinesis.DescribeStreamOutput.t) (err : error)
| EvLog (keyvals : list string)
| EvGetShardIterator (input : kinesis.GetShardIteratorInput.t)
                     (resp : kinesis.GetShardIteratorOutput.t) (err : error)
| EvTick
| EvStoreGet (stream shard iterator : string) (err : error)
| EvGetRecords (shard : string) (input : kinesis.GetRecordsInput.t)
               (resp : kinesis.GetRecordsOutput.t) (err : error)
| EvHandler (records : list kinesis.Record.t)
| EvStoreUpdate (stream shard iterator : string) (err : error).

(** The error a call came back with; [nil] for the steps that cannot fail
    or whose result is discarded. *)
Definition ev_err (ev : Event) : error :=
match ev with
| EvDescribeStream _ _ err => err
| EvGetShardIterator _ _ err => err
| EvStoreGet _ _ _ err => err
| EvGetRecords _ _ _ err => err
| EvStoreUpdate _ _ _ err => err
| EvLog _ | EvTick | EvHandler _ => None
end.

Definition isStoreUpdate (ev : Event) : bool :=
match ev with EvStoreUpdate _ _ _ _ => true | _ => false end.

Definition isStoreEvent (ev : Event) : bool :=
match ev with
| EvStoreUpdate _ _ _ _ | EvStoreGet _ _ _ _ => true
| _ => false
end.

(** A panicking call does not return. *)
Inductive go (A : Type) : Type :=
| Return (a : A)
| Panic (msg : string).
Arguments Return {A} a.
Arguments Panic {A} msg.

(** How a call of [Listen] stands after the ticker has delivered a given
    number of ticks: it has returned an error value, it has panicked, or
    it is blocked in the [select] waiting for the next tick. *)
Inductive Outcome : Type :=
| Returned (err : error)
| Panicked (msg : string)
| Blocked.

Section Program.

Context {Svc St : Type} `{!kinesis.API Svc} `{!Store St}.

Record World : Type := {
  svc : Svc;
  store : St
}.

(** Computations: they change the world and emit events. *)
Definition M (A : Type) : Type := World -> A * World * list Event.

Definition ret {A : Type} (a : A) : M A := fun w => (a, w, []).

Definition bind {A B : Type} (c : M A) (k : A -> M B) : M B :=
fun w =>
  let '(a, w1, e1) := c w in
  let '(b, w2, e2) := k a w1 in
  (b, w2, e1 ++ e2).

Notation "x <- c ;; k" := (bind c (fun x => k))
  (at level 100, c at next level, k at level 200, right associativity,
   only parsing).

Definition emit (ev : Event) : M unit := fun w => (tt, w, [ev]).

(** [if err != nil { return err }], then the rest. *)
Definition orReturn (err : error) (k : M error) : M error :=
match err with
| Some _ => ret err
| None => k
end.

Definition log (s : Stream) (keyvals : list string) : M unit :=
let _ := Logger s keyvals in emit (EvLog keyvals).

Definition svc_DescribeStream (input : kinesis.DescribeStreamInput.t)
  : M (kinesis.DescribeStreamOutput.t * error) :=
fun w =>
  let '(r, svc') := kinesis.DescribeStream input (svc w) in
  (r, {| svc := svc'; store := store w |},
   [EvDescribeStream input (fst r) (snd r)]).

Definition svc_GetShardIterator (input : kinesis.GetShardIteratorInput.t)
  : M (kinesis.GetShardIteratorOutput.t * error) :=
fun w =>
  let '(r, svc') := kinesis.GetShardIterator input (svc w) in
  (r, {| svc := svc'; store := store w |},
   [EvGetShardIterator input (fst r) (snd r)]).

Definition svc_GetRecords (shard : string)
  (input : kinesis.GetRecordsInput.t)
  : M (kinesis.GetRecordsOutput.t * error) :=
fun w =>
  let '(r, svc') := kinesis.GetRecords input (svc w) in
  (r, {| svc := svc'; store := store w |},
   [EvGetRecords shard input (fst r) (snd r)]).

Definition store_GetShardIterator (stream shard : string)
  : M (string * error) :=
fun w =>
  let '(r, st') := GetShardIterator stream shard (store w) in
  (r, {| svc := svc w; store := st' |},
   [EvStoreGet stream shard (fst r) (snd r)]).

Definition store_UpdateShardIterator (stream shard iterator : string)
  : M error :=
fun w =>
  let '(err, st') := UpdateShardIterator stream shard iterator (store w) in
  (err, {| svc := svc w; store := st' |},
   [EvStoreUpdate stream shard iterator err]).

(** [go handler(resp.Records)]: the batch is handed to a new goroutine and
    the loop goes on at once. *)
Definition go_handler (records : list kinesis.Record.t) : M unit :=
emit (EvHandler records).

(** [for _, shard := range shards { ... }] with a body that may leave the
    function by [return err]. *)
Fixpoint forShards (body : Shard -> M error) (shards : list Shard)
  : M error :=
match shards with
| [] => ret None
| shard :: rest =>
    bind (body shard) (fun err => orReturn err (forShards body rest))
end.

(** The loop of [NewStream] that builds the shard directory. Reading
    [shard.SequenceNumberRange.StartingSequenceNumber] through a nil
    [SequenceNumberRange] panics. *)
Fixpoint makeShards (shards : list Shard) (from : list kinesis.Shard.t)
  : go (list Shard) :=
match from with
| [] => Return shards
| shard :: rest =>
    match kinesis.Shard.SequenceNumberRange shard with
    | None => Panic "invalid memory address or nil pointer dereference"
    | Some range =>
        let s := {| ID := aws.StringValue (kinesis.Shard.ShardId shard);
                    StartAt :=
                      aws.StringValue
                        (kinesis.SequenceNumberRange.StartingSequenceNumber
                           range) |} in
        makeShards (shards ++ [s]) rest
    end
end.

(** [NewStream]. The session and the endpoint select the service that
    [World.svc] stands for, and [store] is the reference to [World.store];
    the handle is [None] for the nil pointer. *)
Definition NewStream (kinesisEndpoint : string) (stream : string)
  (config : Config) : M (go (option Stream * error)) :=
r <- svc_DescribeStream
       {| kinesis.DescribeStreamInput.StreamName := aws.String stream |} ;;
let '(resp, err) := r in
match err with
| Some _ => ret (Return (None, err))
| None =>
    match kinesis.DescribeStreamOutput.StreamDescription resp with
    | None =>
        ret (Panic "invalid memory address or nil pointer dereference")
    | Some description =>
        match makeShards [] (kinesis.StreamDescription.Shards description)
        with
        | Panic msg => ret (Panic msg)
        | Return shards =>
            if Nat.eqb (length shards) 0
            then ret (Return (None, Some "kcl: stream has 0 shards"))
            else
              let s := {| Shards := shards;
                          Logger := noOpLogger;
                          config := config;
                          Name := stream |} in
              ret (Return (Some s, None))
        end
    end
end.

Definition seedInput (s : Stream) (shard : Shard)
  : kinesis.GetShardIteratorInput.t :=
{| kinesis.GetShardIteratorInput.ShardId := aws.String (ID shard);
   kinesis.GetShardIteratorInput.ShardIteratorType :=
     aws.String (IteratorType (config s));
   kinesis.GetShardIteratorInput.StreamName := aws.String (Name s) |}.

(** The body of the loop of [setInitialIterators]. *)
Definition seedShard (s : Stream) (shard : Shard) : M error :=
r <- svc_GetShardIterator (seedInput s shard) ;;
let '(resp, err) := r in
orReturn err (
err <- store_UpdateShardIterator (Name s) (ID shard)
         (aws.StringValue
            (kinesis.GetShardIteratorOutput.ShardIterator resp)) ;;
orReturn err (
ret None)).

Definition setInitialIterators (s : Stream) : M error :=
_ <- log s ["level"; "info"; "msg";
            "getting initial shard iterators for all shards"] ;;
forShards (seedShard s) (Shards s).

Definition fetchInput (s : Stream) (iterator : string)
  : kinesis.GetRecordsInput.t :=
{| kinesis.GetRecordsInput.Limit := aws.Int64 (Limit (config s));
   kinesis.GetRecordsInput.ShardIterator := aws.String iterator |}.

(** The body of the loop over the shards inside a tick of [Listen]. *)
Definition pollShard (s : Stream) (shard : Shard) : M error :=
r <- store_GetShardIterator (Name s) (ID shard) ;;
let '(iterator, err) := r in
orReturn err (
_ <- log s ["level"; "info"; "msg"; "getting records for shard";
            "shard"; ID shard; "iterator"; iterator] ;;
r <- svc_GetRecords (ID shard) (fetchInput s iterator) ;;
let '(resp, err) := r in
orReturn err (
_ <- log s ["level"; "info"; "msg";
            "passing records to handler function"] ;;
_ <- go_handler (kinesis.GetRecordsOutput.Records resp) ;;
err <- store_UpdateShardIterator (Name s) (ID shard)
         (aws.StringValue
            (kinesis.GetRecordsOutput.NextShardIterator resp)) ;;
orReturn err (
ret None))).

(** [case <-tick:] and what follows it, up to the end of the loop over
    the shards. *)
Definition tick (s : Stream) : M error :=
_ <- emit EvTick ;;
_ <- log s ["level"; "info"; "msg"; "tick"] ;;
forShards (pollShard s) (Shards s).

(** The [for { select { ... } }] of [Listen] over the ticks the ticker
    delivers. The ticker never stops, so [ticks] only says how far the run
    is followed: after that many ticks a loop that has not returned is
    waiting for the next one. *)
Fixpoint listenLoop (ticks : nat) (s : Stream) : M Outcome :=
match ticks with
| O => ret Blocked
| S n =>
    err <- tick s ;;
    match err with
    | Some _ => ret (Returned err)
    | None => listenLoop n s
    end
end.

(** [Listen]. [time.NewTicker] panics unless the interval is positive.
    The handler is an argument of the source function; the loop only
    starts it, see [go_handler]. *)
Definition Listen (ticks : nat) (s : Stream) : M Outcome :=
if (Interval (config s) <=? 0)%Z
then ret (Panicked "non-positive interval for NewTicker")
else
  err <- setInitialIterators s ;;
  match err with
  | Some _ => ret (Returned err)
  | None => listenLoop ticks s
  end.

End Program.

Arguments World : clear implicits.
Arguments M : clear implicits.

(** ** Reading a trace *)



(** The shard an event is about, when it is about one. *)
Definition ev_shard (ev : Event) : option string :=
match ev with
| EvGetShardIterator input _ _ => kinesis.GetShardIteratorInput.ShardId input
| EvStoreGet _ shard _ _ => Some shard
| EvGetRecords shard _ _ _ => Some shard
| EvStoreUpdate _ shard _ _ => Some shard
| _ => None
end.

(** The number of ticks the loop has taken. *)
Fixpoint ticksOf (evs : list Event) : nat :=
match evs with
| [] => 0
| EvTick :: rest => S (ticksOf rest)
| _ :: rest => ticksOf rest
end.

(** A [GetRecords] request whose iterator is the empty string. *)
Definition fetchedEmpty (ev : Event) : bool :=
match ev with
| EvGetRecords _ input _ _ =>
    bool_decide
      (aws.StringValue (kinesis.GetRecordsInput.ShardIterator input) = "")
| _ => false
end.

(** The position token a successful service call handed back. *)
Definition returnedToken (ev : Event) : option (option string) :=
match ev with
| EvGetShardIterator _ resp None =>
    Some (kinesis.GetShardIteratorOutput.ShardIterator resp)
| EvGetRecords _ _ resp None =>
    Some (kinesis.GetRecordsOutput.NextShardIterator resp)
| _ => None
end.

(** Every token the service handed back is a non-empty string. *)
Definition tokensPresent (evs : list Event) : Prop :=
Forall (fun ev => forall tok, returnedToken ev = Some tok ->
                              aws.StringValue tok <> "") evs.

(** The token most recently handed back for shard [X], followed along a
    trace: [cur] before the event, the result after it. *)
Definition updToken (X : string) (cur : option (option string))
  (ev : Event) : option (option string) :=
match ev with
| EvGetShardIterator input resp None =>
    if bool_decide (kinesis.GetShardIteratorInput.ShardId input = Some X)
    then Some (kinesis.GetShardIteratorOutput.ShardIterator resp)
    else cur
| EvGetRecords shard _ resp None =>
    if bool_decide (shard = X)
    then Some (kinesis.GetRecordsOutput.NextShardIterator resp)
    else cur
| _ => cur
end.

(** The handoff discipline for shard [X] along a trace: every fetch for
    [X] comes after some token was handed back for [X], and passes the
    most recent such token. *)
Fixpoint handoffFrom (X : string) (cur : option (option string))
  (evs : list Event) : Prop :=
match evs with
| [] => True
| ev :: rest =>
    match ev with
    | EvGetRecords shard input _ _ =>
        shard = X ->
        exists tok, cur = Some tok /\
          kinesis.GetRecordsInput.ShardIterator input
          = Some (aws.StringValue tok)
    | _ => True
    end
    /\ handoffFrom X (updToken X cur ev) rest
end.

(** ** A scripted service

    A service that answers every call with the next entry of a script,
    whatever the request; a call beyond the script fails. Any run of the
    program against any service sees some such sequence of answers. *)

Record Script : Type := {
  describes : list (kinesis.DescribeStreamOutput.t * error);
  iterators : list (kinesis.GetShardIteratorOutput.t * error);
  fetches : list (kinesis.GetRecordsOutput.t * error)
}.

Definition exhausted : error := Some "script exhausted".

#[export] Instance Script_API : kinesis.API Script := {
  kinesis.DescribeStream _ sc :=
    match describes sc with
    | r :: rest => (r, {| describes := rest; iterators := iterators sc;
                          fetches := fetches sc |})
    | [] => (({| kinesis.DescribeStreamOutput.StreamDescription := None |},
              exhausted), sc)
    end;
  kinesis.GetShardIterator _ sc :=
    match iterators sc with
    | r :: rest => (r, {| describes := describes sc; iterators := rest;
                          fetches := fetches sc |})
    | [] => (({| kinesis.GetShardIteratorOutput.ShardIterator := None |},
              exhausted), sc)
    end;
  kinesis.GetRecords _ sc :=
    match fetches sc with
    | r :: rest => (r, {| describes := describes sc;
                          iterators := iterators sc; fetches := rest |})
    | [] => (({| kinesis.GetRecordsOutput.Records := [];
                 kinesis.GetRecordsOutput.NextShardIterator := None |},
              exhausted), sc)
    end
}.

Definition seeded (token : string)
  : kinesis.GetShardIteratorOutput.t * error :=
({| kinesis.GetShardIteratorOutput.ShardIterator := Some token |}, None).

Definition batch (records : list kinesis.Record.t) (next : option string)
  : kinesis.GetRecordsOutput.t * error :=
({| kinesis.GetRecordsOutput.Records := records;
    kinesis.GetRecordsOutput.NextShardIterator := next |}, None).

Definition failedFetch (msg : string)
  : kinesis.GetRecordsOutput.t * error :=
({| kinesis.GetRecordsOutput.Records := [];
    kinesis.GetRecordsOutput.NextShardIterator := None |}, Some msg).

Definition record (seq : string) : kinesis.Record.t :=
{| kinesis.Record.SequenceNumber := Some seq;
   kinesis.Record.PartitionKey := Some "pk";
   kinesis.Record.Data := "" |}.

(** The scenario of the specification: stream "orders", two shards,
    policy LATEST, limit 100, interval 100ms. *)
Definition ordersConfig : Config :=
{| Interval := 100000000; IteratorType := IteratorTypeLatest; Limit := 100 |}.

Definition shard0 : Shard := {| ID := "shard-0"; StartAt := "1" |}.
Definition shard1 : Shard := {| ID := "shard-1"; StartAt := "1" |}.

Definition orders : Stream :=
{| Shards := [shard0; shard1]; Logger := noOpLogger;
   config := ordersConfig; Name := "orders" |}.

Definition ordersDescription : kinesis.DescribeStreamOutput.t :=
{| kinesis.DescribeStreamOutput.StreamDescription :=
     Some {| kinesis.StreamDescription.Shards :=
       [ {| kinesis.Shard.ShardId := Some "shard-0";
            kinesis.Shard.SequenceNumberRange :=
              Some {| kinesis.SequenceNumberRange.StartingSequenceNumber :=
                        Some "1" |} |};
         {| kinesis.Shard.ShardId := Some "shard-1";
            kinesis.Shard.SequenceNumberRange :=
              Some {| kinesis.SequenceNumberRange.StartingSequenceNumber :=
                        Some "1" |} |} ] |} |}.

(** Seeds "it-0a"/"it-1a"; tick 1 yields three records and "it-0b" for
    shard-0, no record and "it-1b" for shard-1; tick 2 yields no record
    and "it-0c" for shard-0 and then the fetch for shard-1 fails. *)
Definition ordersScript : Script :=
{| describes := [(ordersDescription, None)];
   iterators := [seeded "it-0a"; seeded "it-1a"];
   fetches := [batch [record "1"; record "2"; record "3"] (Some "it-0b");
               batch [] (Some "it-1b");
               batch [] (Some "it-0c");
               failedFetch "throttled"] |}.

(** As above, but the second tick's fetch for shard-0 fails. *)
Definition throttledScript : Script :=
{| describes := [(ordersDescription, None)];
   iterators := [seeded "it-0a"; seeded "it-1a"];
   fetches := [batch [record "1"] (Some "it-0b");
               batch [] (Some "it-1b");
               failedFetch "throttled"] |}.

(** A stream whose description lists no shard. *)
Definition emptyDescription : kinesis.DescribeStreamOutput.t :=
{| kinesis.DescribeStreamOutput.StreamDescription :=
     Some {| kinesis.StreamDescription.Shards := [] |} |}.

Definition emptyScript : Script :=
{| describes := [(emptyDescription, None)]; iterators := []; fetches := [] |}.

(** Shard-0 is closed: its first fetch comes back without a next
    iterator. *)
Definition closedShardScript : Script :=
{| describes := [(ordersDescription, None)];
   iterators := [seeded "it-0a"; seeded "it-1a"];
   fetches := [batch [record "1"] None;
               batch [] (Some "it-1b");
               batch [] None;
               batch [] (Some "it-1c")] |}.

Definition freshWorld (sc : Script) : World Script LocalStore.t :=
{| svc := sc; store := NewLocalStore |}.

(** The events of a run. *)
Definition eventsOf {A W : Type} (r : A * W * list Event) : list Event :=
snd r.

Definition resultOf {A W : Type} (r : A * W * list Event) : A :=
fst (fst r).

Definition worldOf {A W : Type} (r : A * W * list Event) : W :=
snd (fst r).

(** The poll loop never issues [GetRecords] with an empty iterator,
    however long the run is followed. *)
Definition neverFetchesEmpty {Svc : Type} `{!kinesis.API Svc}
  (s : Stream) (w : World Svc LocalStore.t) : Prop :=
forall ticks ev,
  In ev (eventsOf (Listen ticks s w)) -> fetchedEmpty ev = false.

(** Writing one pair never changes what is read for a different pair. *)
Definition crossKeyIndependent : Prop :=
forall stream1 shard1 stream2 shard2 iterator (s : LocalStore.t),
  (stream1, shard1) <> (stream2, shard2) ->
  fst (LocalStore.GetShardIterator stream2 shard2
         (snd (LocalStore.UpdateShardIterator stream1 shard1 iterator s)))
  = fst (LocalStore.GetShardIterator stream2 shard2 s).

(** After any history of writes on a new store, a read returns the value
    most recently written for that very pair, or the empty string when
    the pair was never written; the error is nil. *)
Definition getContract : Prop :=
forall ops stream shard,
  fst (LocalStore.GetShardIterator stream shard
         (applyUpdates ops NewLocalStore))
  = (default "" (lastWritten ops stream shard), None).

(** ** Runs that stop at the first error *)

Definition noError (ev : Event) : Prop := ev_err ev = None.

(** The trace ends with a call that came back with the non-nil error
    [err], and no call before it failed. *)
Definition endsInError (err : error) (evs : list Event) : Prop :=
err <> None /\
exists pre ev, evs = pre ++ [ev] /\ ev_err ev = err /\ Forall noError pre.

(** A step that hands back [nil] after calls that all succeeded, or the
    error of its last call, the first one to fail. *)
Definition stopsAtFirstError {W : Type} (r : error * W * list Event) : Prop :=
match resultOf r with
| None => Forall noError (eventsOf r)
| Some _ => endsInError (resultOf r) (eventsOf r)
end.

Definition outcomeAtFirstError {W : Type} (r : Outcome * W * list Event)
  : Prop :=
match resultOf r with
| Returned err => endsInError err (eventsOf r)
| Panicked _ | Blocked => Forall noError (eventsOf r)
end.

(** The calls [Listen] makes that can fail: seeding a shard, reading the
    store, fetching records, updating the store. *)
Definition listenCall (ev : Event) : bool :=
match ev with
| EvGetShardIterator _ _ _ | EvStoreGet _ _ _ _
| EvGetRecords _ _ _ _ | EvStoreUpdate _ _ _ _ => true
| _ => false
end.

(** The events of the two loops over the shards. *)
Definition shardEvent (ev : Event) : bool :=
match ev with
| EvDescribeStream _ _ _ | EvTick => false
| _ => true
end.

(** A store update written for shard [X]. *)
Definition updatesShard (X : string) (ev : Event) : bool :=
match ev with
| EvStoreUpdate _ shard _ _ => bool_decide (shard = X)
| _ => false
end.

Definition describeInput (stream : string) : kinesis.DescribeStreamInput.t :=
{| kinesis.DescribeStreamInput.StreamName := aws.String stream |}.

(** The three events of polling a shard whose fetch fails. *)
Definition failedPoll (s : Stream) (shard : Shard) (iterator : string)
  (resp : kinesis.GetRecordsOutput.t) (err : error) : list Event :=
[EvStoreGet (Name s) (ID shard) iterator None;
 EvLog ["level"; "info"; "msg"; "getting records for shard";
        "shard"; ID shard; "iterator"; iterator];
 EvGetRecords (ID shard) (fetchInput s iterator) resp err].

Definition tickStart : list Event :=
[EvTick; EvLog ["level"; "info"; "msg"; "tick"]].

(** The token most recently handed back for [X] at the end of a trace. *)
Definition tokenAfter (X : string) (cur : option (option string))
  (evs : list Event) : option (option string) :=
fold_left (updToken X) evs cur.

(** The local store holds, for shard [X] of stream [s], the string of the
    token most recently handed back for it. *)
Definition storeHolds {Svc : Type} (s : Stream) (X : string)
  (cur : option (option string)) (w : World Svc LocalStore.t) : Prop :=
forall tok, cur = Some tok ->
  LocalStore.m (store w) !! key (Name s) X = Some (aws.StringValue tok).

(** The events of seeding a shard without error. *)
Definition seededShard (s : Stream) (shard : Shard)
  (resp : kinesis.GetShardIteratorOutput.t) : list Event :=
[EvGetShardIterator (seedInput s shard) resp None;
 EvStoreUpdate (Name s) (ID shard)
   (aws.StringValue (kinesis.GetShardIteratorOutput.ShardIterator resp)) None].

(** The events of polling a shard without error. *)
Definition polledShard (s : Stream) (shard : Shard) (iterator : string)
  (resp : kinesis.GetRecordsOutput.t) : list Event :=
[EvStoreGet (Name s) (ID shard) iterator None;
 EvLog ["level"; "info"; "msg"; "getting records for shard";
        "shard"; ID shard; "iterator"; iterator];
 EvGetRecords (ID shard) (fetchInput s iterator) resp None;
 EvLog ["level"; "info"; "msg"; "passing records to handler function"];
 EvHandler (kinesis.GetRecordsOutput.Records resp);
 EvStoreUpdate (Name s) (ID shard)
   (aws.StringValue (kinesis.GetRecordsOutput.NextShardIterator resp)) None].

Definition written (k v : string) (st : LocalStore.t) : LocalStore.t :=
{| LocalStore.m := <[k := v]> (LocalStore.m st) |}.

Definition position (st : LocalStore.t) (stream shard : string) : string :=
default "" (LocalStore.m st !! key stream shard).

(** The event that opens seeding. *)
Definition seedingStart : list Event :=
[EvLog ["level"; "info"; "msg";
        "getting initial shard iterators for all shards"]].

(** The events of polling a shard whose store read fails. *)
Definition failedRead (s : Stream) (shard : Shard) (iterator : string)
  (err : error) : list Event :=
[EvStoreGet (Name s) (ID shard) iterator err].

(** The events of polling a shard up to a store update that fails. *)
Definition failedUpdate (s : Stream) (shard : Shard) (iterator : string)
  (resp : kinesis.GetRecordsOutput.t) (err : error) : list Event :=
[EvStoreGet (Name s) (ID shard) iterator None;
 EvLog ["level"; "info"; "msg"; "getting records for shard";
        "shard"; ID shard; "iterator"; iterator];
 EvGetRecords (ID shard) (fetchInput s iterator) resp None;
 EvLog ["level"; "info"; "msg"; "passing records to handler function"];
 EvHandler (kinesis.GetRecordsOutput.Records resp);
 EvStoreUpdate (Name s) (ID shard)
   (aws.StringValue (kinesis.GetRecordsOutput.NextShardIterator resp)) err].

(** ** More readers of a trace *)

(** The batches handed to the handler, in order. *)
Definition handled (evs : list Event) : list (list kinesis.Record.t) :=
flat_map (fun ev => match ev with EvHandler records => [records] | _ => [] end)
         evs.

(** The batches that successful fetches returned, in order. *)
Definition fetchedBatches (evs : list Event) : list (list kinesis.Record.t) :=
flat_map (fun ev => match ev with
                    | EvGetRecords _ _ resp None =>
                        [kinesis.GetRecordsOutput.Records resp]
                    | _ => []
                    end) evs.

(** The shards for which a fetch was issued, in order. *)
Definition polledShards (evs : list Event) : list string :=
flat_map (fun ev => match ev with
                    | EvGetRecords shard _ _ _ => [shard]
                    | _ => []
                    end) evs.

Definition fetchRequests (evs : list Event) : list kinesis.GetRecordsInput.t :=
flat_map (fun ev => match ev with
                    | EvGetRecords _ input _ _ => [input]
                    | _ => []
                    end) evs.

Definition seedRequests (evs : list Event)
  : list kinesis.GetShardIteratorInput.t :=
flat_map (fun ev => match ev with
                    | EvGetShardIterator input _ _ => [input]
                    | _ => []
                    end) evs.

(** The (stream, shard) pairs read from the store, in order. *)
Definition storeReads (evs : list Event) : list (string * string) :=
flat_map (fun ev => match ev with
                    | EvStoreGet stream shard _ _ => [(stream, shard)]
                    | _ => []
                    end) evs.

(** The (stream, shard) pairs for which a store update was attempted, in
    order. *)
Definition storeWrites (evs : list Event) : list (string * string) :=
flat_map (fun ev => match ev with
                    | EvStoreUpdate stream shard _ _ => [(stream, shard)]
                    | _ => []
                    end) evs.

(** ** The shard directory built by [NewStream] *)

Definition hasRange (shard : kinesis.Shard.t) : bool :=
match kinesis.Shard.SequenceNumberRange shard with
| Some _ => true
| None => false
end.

(** The entry [NewStream] makes for a described shard that has a
    sequence-number range. *)
Definition shardOf (shard : kinesis.Shard.t) : Shard :=
{| ID := aws.StringValue (kinesis.Shard.ShardId shard);
   StartAt :=
     match kinesis.Shard.SequenceNumberRange shard with
     | Some range =>
         aws.StringValue
           (kinesis.SequenceNumberRange.StartingSequenceNumber range)
     | None => ""
     end |}.

(** The seeding request for a described shard of [stream] under [cfg]. *)
Definition describedSeedInput (stream : string) (cfg : Config)
  (shard : kinesis.Shard.t) : kinesis.GetShardIteratorInput.t :=
{| kinesis.GetShardIteratorInput.ShardId :=
     Some (aws.StringValue (kinesis.Shard.ShardId shard));
   kinesis.GetShardIteratorInput.ShardIteratorType := Some (IteratorType cfg);
   kinesis.GetShardIteratorInput.StreamName := Some stream |}.

(** ** Keys of the local store *)

(** The separator character of [key]. *)
Definition dash : Ascii.ascii :=
match "-" with
| String c _ => c
| EmptyString => Ascii.zero
end.

(** The string does not hold the separator. *)
Fixpoint dashFree (s : string) : bool :=
match s with
| EmptyString => true
| String c rest => negb (Ascii.eqb c dash) && dashFree rest
end.

(** No write of the history is for another pair that is formatted to the
    key of [(stream, shard)]. *)
Definition collisionFree (ops : list (string * string * string))
  (stream shard : string) : Prop :=
Forall (fun '(st, sh, _) =>
          key st sh = key stream shard -> (st, sh) = (stream, shard)) ops.

(** ** A store that can fail

    A local store behind a medium that serves [quota] operations and
    fails every operation after that. *)

Record QuotaStore : Type := {
  quota : nat;
  local : LocalStore.t
}.

Definition unavailable : error := Some "store unavailable".

#[export] Instance QuotaStore_Store : Store QuotaStore := {
  GetShardIterator stream shard st :=
    match quota st with
    | O => (("", unavailable), st)
    | S q =>
        (fst (LocalStore.GetShardIterator stream shard (local st)),
         {| quota := q; local := local st |})
    end;
  UpdateShardIterator stream shard iterator st :=
    match quota st with
    | O => (unavailable, st)
    | S q =>
        (None,
         {| quota := q;
            local := snd (LocalStore.UpdateShardIterator stream shard iterator
                            (local st)) |})
    end
}.

Definition quotaWorld (sc : Script) (n : nat) : World Script QuotaStore :=
{| svc := sc; store := {| quota := n; local := NewLocalStore |} |}.

(** A script whose second seeding request fails. *)
Definition unseededScript : Script :=
{| describes := [(ordersDescription, None)];
   iterators :=
     [seeded "it-0a";
      ({| kinesis.GetShardIteratorOutput.ShardIterator := None |},
       Some "no such shard")];
   fetches := [] |}.

(** The shards that the description of "orders" lists. *)
Definition ordersListed : list kinesis.Shard.t :=
match kinesis.DescribeStreamOutput.StreamDescription ordersDescription with
| Some description => kinesis.StreamDescription.Shards description
| None => []
end.

(** A description whose second shard has no sequence-number range. *)
Definition rangelessDescription : kinesis.DescribeStreamOutput.t :=
{| kinesis.DescribeStreamOutput.StreamDescription :=
     Some {| kinesis.StreamDescription.Shards :=
       [ {| kinesis.Shard.ShardId := Some "shard-0";
            kinesis.Shard.SequenceNumberRange :=
              Some {| kinesis.SequenceNumberRange.StartingSequenceNumber :=
                        Some "1" |} |};
         {| kinesis.Shard.ShardId := Some "shard-1";
            kinesis.Shard.SequenceNumberRange := None |} ] |} |}.

Definition rangelessScript : Script :=
{| describes := [(rangelessDescription, None)]; iterators := [];
   fetches := [] |}.

(** ** The example program (cmd/example/main.go) *)

(** How [main] stands after the ticker has delivered a given number of
    ticks: it has returned, it has panicked with a value, or it is still
    polling. *)
Inductive MainOutcome : Type :=
| Exited
| MainPanicked (value : string)
| Polling.

(** [kcl.Config{Limit: 1000, Interval: time.Millisecond * 1000,
    IteratorType: kcl.IteratorTypeLatest}] *)
Definition exampleConfig : Config :=
{| Interval := 1000000 * 1000; IteratorType := IteratorTypeLatest;
   Limit := 1000 |}.

(** [main]. [newSession] is the error of [session.NewSession], [getenv]
    is [os.Getenv], [service] is the service behind the session. The
    handler only prints, see [go_handler]. *)
Definition main {Svc : Type} `{!kinesis.API Svc} (newSession : error)
  (getenv : string -> string) (ticks : nat) (service : Svc)
  : MainOutcome * World Svc LocalStore.t * list Event :=
let w := {| svc := service; store := NewLocalStore |} in
match newSession with
| Some value => (MainPanicked value, w, [])
| None =>
    let '(r, w1, e1) :=
      NewStream (getenv "AWS_KINESIS_ENDPOINT") (getenv "AWS_KINESIS_STREAM")
        exampleConfig w in
    match r with
    | Panic value => (MainPanicked value, w1, e1)
    | Return (_, Some value) => (MainPanicked value, w1, e1)
    | Return (None, None) =>
        (MainPanicked "invalid memory address or nil pointer dereference",
         w1, e1)
    | Return (Some k, None) =>
        let '(o, w2, e2) := Listen ticks k w1 in
        match o with
        | Returned (Some value) => (MainPanicked value, w2, e1 ++ e2)
        | Returned None => (Exited, w2, e1 ++ e2)
        | Panicked value => (MainPanicked value, w2, e1 ++ e2)
        | Blocked => (Polling, w2, e1 ++ e2)
        end
    end
end.

Definition exampleEnv (name : string) : string :=
if String.eqb name "AWS_KINESIS_STREAM" then "orders"
else if String.eqb name "AWS_KINESIS_ENDPOINT" then "http://localhost:4567"
else "".

(** * Properties *)

(** ** Iterator-type constants *)

(** C8. Four of the five exported constants are the identifiers the
    service recognises; the constant for the after-sequence-number policy
    is "AFTER_SEQUENCE_NUMER" and differs from the service's
    "AFTER_SEQUENCE_NUMBER". *)
Theorem after_sequence_number_constant_misspelt :
  IteratorTypeAfterSequenceNumber = "AFTER_SEQUENCE_NUMER"
  /\ exportedConstant AfterSequenceNumber <> "AFTER_SEQUENCE_NUMBER"
  /\ exportedConstant AfterSequenceNumber
     <> serviceIdentifier AfterSequenceNumber
  /\ exportedConstant Latest = serviceIdentifier Latest
  /\ exportedConstant TrimHorizon = serviceIdentifier TrimHorizon
  /\ exportedConstant AtSequenceNumber = serviceIdentifier AtSequenceNumber
  /\ exportedConstant AtTimestamp = serviceIdentifier AtTimestamp.
Proof. repeat split; discriminate. Qed.

(** ** The local store *)

Lemma key_inj_shard (stream shard1 shard2 : string) :
  key stream shard1 = key stream shard2 -> shard1 = shard2.
Proof.
  unfold key. intros Heq.
  apply (inj (String.app stream)) in Heq.
  now apply (inj (String.app "-")) in Heq.
Qed.

Lemma key_ne_shard (stream shard1 shard2 : string) :
  shard1 <> shard2 -> key stream shard1 <> key stream shard2.
Proof. intros Hne Heq. apply Hne. eapply key_inj_shard, Heq. Qed.

Lemma get_error_nil (stream shard : string) (s : LocalStore.t) :
  snd (fst (LocalStore.GetShardIterator stream shard s)) = None
  /\ snd (LocalStore.GetShardIterator stream shard s) = s.
Proof. split; reflexivity. Qed.

Lemma get_after_update (stream shard iterator : string) (s : LocalStore.t) :
  fst (LocalStore.GetShardIterator stream shard
         (snd (LocalStore.UpdateShardIterator stream shard iterator s)))
  = (iterator, None).
Proof.
  unfold LocalStore.GetShardIterator, LocalStore.UpdateShardIterator. simpl.
  now rewrite lookup_insert_eq.
Qed.

Lemma get_after_update_other_key (stream1 shard1 stream2 shard2 iterator : string)
  (s : LocalStore.t) :
  key stream1 shard1 <> key stream2 shard2 ->
  fst (LocalStore.GetShardIterator stream2 shard2
         (snd (LocalStore.UpdateShardIterator stream1 shard1 iterator s)))
  = fst (LocalStore.GetShardIterator stream2 shard2 s).
Proof.
  intros Hne.
  unfold LocalStore.GetShardIterator, LocalStore.UpdateShardIterator. simpl.
  now rewrite lookup_insert_ne.
Qed.

Lemma get_new_store (stream shard : string) :
  fst (LocalStore.GetShardIterator stream shard NewLocalStore) = ("", None).
Proof.
  unfold LocalStore.GetShardIterator, NewLocalStore. simpl.
  now rewrite lookup_empty.
Qed.

(** C5. The pairs ("orders-eu", "shard-0") and ("orders", "eu-shard-0")
    differ and are formatted to the same key: a write for the first
    replaces what is read for the second, so the store is not independent
    across distinct pairs. *)
Theorem key_collision_overwrites_other_pair :
  let s := snd (LocalStore.UpdateShardIterator "orders" "eu-shard-0" "it-1"
                  NewLocalStore) in
  let s' := snd (LocalStore.UpdateShardIterator "orders-eu" "shard-0" "it-2"
                   s) in
  ("orders-eu", "shard-0") <> ("orders", "eu-shard-0")
  /\ key "orders-eu" "shard-0" = key "orders" "eu-shard-0"
  /\ fst (LocalStore.GetShardIterator "orders" "eu-shard-0" s)
     = ("it-1", None)
  /\ fst (LocalStore.GetShardIterator "orders" "eu-shard-0" s')
     = ("it-2", None)
  /\ ~ crossKeyIndependent.
Proof.
  cbv zeta. split; [discriminate|]. split; [reflexivity|].
  split; [reflexivity|]. split; [reflexivity|].
  intros Hind.
  specialize (Hind "orders-eu" "shard-0" "orders" "eu-shard-0" "it-2"
                (snd (LocalStore.UpdateShardIterator "orders" "eu-shard-0"
                        "it-1" NewLocalStore))).
  assert (Hne : ("orders-eu", "shard-0") <> ("orders", "eu-shard-0"))
    by discriminate.
  specialize (Hind Hne). vm_compute in Hind. discriminate.
Qed.

(** C7. A read after a write of the same pair returns the written value,
    a read on a new store returns the empty string, and the error is
    always nil; but after a write for ("orders-eu", "shard-0") alone, the
    never-written pair ("orders", "eu-shard-0") reads "it-0a" instead of
    the empty string, so the contract over histories fails. *)
Theorem get_returns_value_of_colliding_pair :
  let ops := [("orders-eu", "shard-0", "it-0a")] in
  (forall stream shard iterator s,
      fst (LocalStore.GetShardIterator stream shard
             (snd (LocalStore.UpdateShardIterator stream shard iterator s)))
      = (iterator, None))
  /\ (forall stream shard,
         fst (LocalStore.GetShardIterator stream shard NewLocalStore)
         = ("", None))
  /\ lastWritten ops "orders" "eu-shard-0" = None
  /\ fst (LocalStore.GetShardIterator "orders" "eu-shard-0"
            (applyUpdates ops NewLocalStore)) = ("it-0a", None)
  /\ ~ getContract.
Proof.
  cbv zeta. split; [apply get_after_update|]. split; [apply get_new_store|].
  split; [reflexivity|]. split; [reflexivity|].
  intros Hc.
  specialize (Hc [("orders-eu", "shard-0", "it-0a")] "orders" "eu-shard-0").
  vm_compute in Hc. discriminate.
Qed.

(** ** The local store under concurrent callers *)

Lemma update_alone (stream shard iterator : string) (s : LocalStore.t) :
  exists c,
    Concurrent.run [0; 0; 0]
      (Concurrent.start s [Concurrent.UpdateShardIterator stream shard iterator])
    = Some c
    /\ Concurrent.m c
       = LocalStore.m
           (snd (LocalStore.UpdateShardIterator stream shard iterator s))
    /\ Concurrent.mutex c = false
    /\ Concurrent.goroutines c = [[]].
Proof. eexists. repeat split. Qed.

Lemma get_alone (stream shard : string) (s : LocalStore.t) :
  exists c,
    Concurrent.run [0]
      (Concurrent.start s [Concurrent.GetShardIterator stream shard])
    = Some c
    /\ Concurrent.reads c
       = [(0, fst (fst (LocalStore.GetShardIterator stream shard s)))]
    /\ Concurrent.m c = LocalStore.m s.
Proof. eexists. repeat split. Qed.

Lemma writers_step (stream0 shard0 iterator0 stream1 shard1 iterator1 : string)
  (i : nat) (c c' : Concurrent.config) :
  Concurrent.writersInvariant
    (Concurrent.UpdateShardIterator stream0 shard0 iterator0)
    (Concurrent.UpdateShardIterator stream1 shard1 iterator1) c ->
  Concurrent.step i c = Some c' ->
  Concurrent.writersInvariant
    (Concurrent.UpdateShardIterator stream0 shard0 iterator0)
    (Concurrent.UpdateShardIterator stream1 shard1 iterator1) c'.
Proof.
  intros (p0 & p1 & Hgs & Hmutex & Hexcl) Hstep.
  unfold Concurrent.step in Hstep. rewrite Hgs, Hmutex in Hstep.
  destruct i as [|[|i]]; [| |destruct p0, p1; discriminate].
  - destruct p0, p1; cbn in Hstep, Hexcl; try discriminate;
      injection Hstep as <-.
    all: first [ now exists Concurrent.AtAssign, Concurrent.AtLock
               | now exists Concurrent.AtAssign, Concurrent.Finished
               | now exists Concurrent.AtUnlock, Concurrent.AtLock
               | now exists Concurrent.AtUnlock, Concurrent.Finished
               | now exists Concurrent.Finished, Concurrent.AtLock
               | now exists Concurrent.Finished, Concurrent.Finished ].
  - destruct p0, p1; cbn in Hstep, Hexcl; try discriminate;
      injection Hstep as <-.
    all: first [ now exists Concurrent.AtLock, Concurrent.AtAssign
               | now exists Concurrent.Finished, Concurrent.AtAssign
               | now exists Concurrent.AtLock, Concurrent.AtUnlock
               | now exists Concurrent.Finished, Concurrent.AtUnlock
               | now exists Concurrent.AtLock, Concurrent.Finished
               | now exists Concurrent.Finished, Concurrent.Finished ].
Qed.

Lemma writers_no_race (stream0 shard0 iterator0 stream1 shard1 iterator1 : string)
  (c : Concurrent.config) :
  Concurrent.writersInvariant
    (Concurrent.UpdateShardIterator stream0 shard0 iterator0)
    (Concurrent.UpdateShardIterator stream1 shard1 iterator1) c ->
  ~ Concurrent.race c.
Proof.
  intros (p0 & p1 & Hgs & _ & Hexcl) (i & j & a & b & Hij & Hi & Hj & Hconf).
  unfold Concurrent.next in Hi, Hj. rewrite Hgs in Hi, Hj.
  destruct i as [|[|i]], j as [|[|j]]; try congruence;
    destruct p0, p1; cbn in Hi, Hj, Hexcl; try discriminate;
    injection Hi as <-; injection Hj as <-; discriminate.
Qed.

(** The write path alone is safe: two goroutines in
    [UpdateShardIterator] never race, whatever the schedule. *)
Lemma two_writers_do_not_race
  (stream0 shard0 iterator0 stream1 shard1 iterator1 : string)
  (store : LocalStore.t) :
  Concurrent.raceFree store
    [Concurrent.UpdateShardIterator stream0 shard0 iterator0;
     Concurrent.UpdateShardIterator stream1 shard1 iterator1].
Proof.
  intros schedule.
  assert (Hstart : Concurrent.writersInvariant
            (Concurrent.UpdateShardIterator stream0 shard0 iterator0)
            (Concurrent.UpdateShardIterator stream1 shard1 iterator1)
            (Concurrent.start store
               [Concurrent.UpdateShardIterator stream0 shard0 iterator0;
                Concurrent.UpdateShardIterator stream1 shard1 iterator1]))
    by now exists Concurrent.AtLock, Concurrent.AtLock.
  revert Hstart. generalize (Concurrent.start store
               [Concurrent.UpdateShardIterator stream0 shard0 iterator0;
                Concurrent.UpdateShardIterator stream1 shard1 iterator1]).
  induction schedule as [|i schedule IH]; intros c0 Hinv c Hrun.
  - injection Hrun as <-. now apply (writers_no_race _ _ _ _ _ _ _ Hinv).
  - cbn in Hrun. destruct (Concurrent.step i c0) as [c1|] eqn:Hstep;
      [|discriminate].
    apply (IH c1); [|exact Hrun].
    now apply (writers_step _ _ _ _ _ _ _ _ _ Hinv Hstep).
Qed.

(** C9. The write path takes the mutex around its map assignment, the read
    path indexes the map without taking it; with one goroutine in
    [UpdateShardIterator] and another in [GetShardIterator] on the same
    store, after the writer has locked, the map assignment and the map
    read are both pending and unordered: a data race. *)
Theorem lock_free_read_races_with_write :
  (forall stream shard iterator,
      Concurrent.guarded false
        (Concurrent.UpdateShardIterator stream shard iterator) = true)
  /\ (forall stream shard,
         Concurrent.guarded false (Concurrent.GetShardIterator stream shard)
         = false)
  /\ ~ Concurrent.raceFree NewLocalStore
         [Concurrent.UpdateShardIterator "orders" "shard-0" "it-0b";
          Concurrent.GetShardIterator "orders" "shard-0"].
Proof.
  split; [reflexivity|]. split; [reflexivity|].
  intros Hfree.
  refine (Hfree [0] _ eq_refl _).
  exists 0, 1, (Concurrent.MapAssign (key "orders" "shard-0") "it-0b"),
    (Concurrent.MapIndex (key "orders" "shard-0")).
  repeat split. discriminate.
Qed.

(** ** Proof steps shared by the lemmas below *)

(** Destructs the calls to the service and to the store in the goal. *)
Ltac split_calls :=
  repeat (match goal with
  | |- context [kinesis.GetShardIterator ?i ?x] =>
      destruct (kinesis.GetShardIterator i x) as [[? [?|]] ?] eqn:?
  | |- context [kinesis.GetRecords ?i ?x] =>
      destruct (kinesis.GetRecords i x) as [[? [?|]] ?] eqn:?
  | |- context [kinesis.DescribeStream ?i ?x] =>
      destruct (kinesis.DescribeStream i x) as [[? [?|]] ?] eqn:?
  | |- context [GetShardIterator ?a ?b ?x] =>
      destruct (GetShardIterator a b x) as [[? [?|]] ?] eqn:?
  | |- context [UpdateShardIterator ?a ?b ?c ?x] =>
      destruct (UpdateShardIterator a b c x) as [[?|] ?] eqn:?
  end; cbn).

Ltac unfold_step :=
  unfold seedShard, pollShard, tick, setInitialIterators, bind, orReturn,
    ret, log, emit, go_handler, svc_GetShardIterator, svc_GetRecords,
    svc_DescribeStream, store_GetShardIterator, store_UpdateShardIterator;
  cbn [fst snd app].

(** ** The program against any service and any store *)

Section AnyStore.

Context {Svc St : Type} `{!kinesis.API Svc} `{!Store St}.

Implicit Types (s : Stream) (w : World Svc St) (evs : list Event).

Lemma forShards_cons (body : Shard -> M Svc St error) (shard : Shard)
  (rest : list Shard) w :
  forShards body (shard :: rest) w =
  match body shard w with
  | (Some e, w1, e1) => (Some e, w1, e1)
  | (None, w1, e1) =>
      match forShards body rest w1 with
      | (r, w2, e2) => (r, w2, e1 ++ e2)
      end
  end.
Proof.
  cbn [forShards]. unfold bind, orReturn, ret.
  destruct (body shard w) as [[[e|] w1] e1]; [|reflexivity].
  now rewrite app_nil_r.
Qed.

Lemma forShards_app (body : Shard -> M Svc St error) (pre post : list Shard) w :
  forShards body (pre ++ post) w =
  match forShards body pre w with
  | (Some e, w1, e1) => (Some e, w1, e1)
  | (None, w1, e1) =>
      match forShards body post w1 with
      | (r, w2, e2) => (r, w2, e1 ++ e2)
      end
  end.
Proof.
  revert w. induction pre as [|shard pre IH]; intros w.
  - cbn. now destruct (forShards body post w) as [[r w2] e2].
  - rewrite <- app_comm_cons, !forShards_cons.
    destruct (body shard w) as [[[e|] w1] e1]; [reflexivity|].
    rewrite IH.
    destruct (forShards body pre w1) as [[[e|] w2] e2]; [reflexivity|].
    destruct (forShards body post w2) as [[r w3] e3].
    now rewrite app_assoc.
Qed.

Lemma endsInError_app (err : error) (pre evs : list Event) :
  Forall noError pre -> endsInError err evs -> endsInError err (pre ++ evs).
Proof.
  intros Hpre [Hne (p & ev & -> & Herr & Hp)]. split; [exact Hne|].
  exists (pre ++ p), ev. rewrite app_assoc. split; [reflexivity|].
  split; [exact Herr|]. now apply Forall_app.
Qed.

Lemma endsInError_not_clean (err : error) evs :
  endsInError err evs -> ~ Forall noError evs.
Proof.
  intros [Hne (p & ev & -> & Herr & _)] Hall.
  apply Forall_app in Hall as [_ Hev].
  inversion Hev as [|? ? Hn _]; subst. unfold noError in Hn. congruence.
Qed.

Lemma seedShard_stops s shard w : stopsAtFirstError (seedShard s shard w).
Proof.
  unfold stopsAtFirstError, resultOf, eventsOf, endsInError.
  unfold_step. split_calls; cbn.
  all: try (split; [discriminate|]).
  - now exists [], (EvGetShardIterator (seedInput s shard) t (Some s0)).
  - eexists [_], _. split; [reflexivity|]. split; [reflexivity|].
    repeat constructor.
  - repeat constructor.
Qed.

Lemma pollShard_stops s shard w : stopsAtFirstError (pollShard s shard w).
Proof.
  unfold stopsAtFirstError, resultOf, eventsOf, endsInError.
  unfold_step. split_calls; cbn.
  all: try (split; [discriminate|]).
  - eexists [], _. split; [reflexivity|]. now split.
  - eexists [_; _], _. split; [reflexivity|]. split; [reflexivity|].
    repeat constructor.
  - eexists [_; _; _; _; _], _. split; [reflexivity|]. split; [reflexivity|].
    repeat constructor.
  - repeat constructor.
Qed.

Lemma forShards_stops (body : Shard -> M Svc St error) :
  (forall shard w, stopsAtFirstError (body shard w)) ->
  forall shards w, stopsAtFirstError (forShards body shards w).
Proof.
  intros Hbody shards. induction shards as [|shard rest IH]; intros w.
  - cbn. constructor.
  - rewrite forShards_cons. specialize (Hbody shard w).
    destruct (body shard w) as [[[e|] w1] e1]; [exact Hbody|].
    specialize (IH w1). destruct (forShards body rest w1) as [[r w2] e2].
    unfold stopsAtFirstError, resultOf, eventsOf in *. cbn [fst snd] in *.
    destruct r as [e|].
    + now apply endsInError_app.
    + now apply Forall_app.
Qed.

Lemma setInitialIterators_stops s w :
  stopsAtFirstError (setInitialIterators s w).
Proof.
  pose proof (forShards_stops (seedShard s) (seedShard_stops s) (Shards s) w)
    as Hloop.
  unfold setInitialIterators, bind, log, emit.
  destruct (forShards (seedShard s) (Shards s) w) as [[r w1] e1].
  unfold stopsAtFirstError, resultOf, eventsOf in *. cbn [fst snd app] in *.
  destruct r as [e|].
  - now apply (endsInError_app _ [_]); [repeat constructor|].
  - now constructor.
Qed.

Lemma tick_stops s w : stopsAtFirstError (tick s w).
Proof.
  pose proof (forShards_stops (pollShard s) (pollShard_stops s) (Shards s) w)
    as Hloop.
  unfold tick, bind, log, emit.
  destruct (forShards (pollShard s) (Shards s) w) as [[r w1] e1].
  unfold stopsAtFirstError, resultOf, eventsOf in *. cbn [fst snd app] in *.
  destruct r as [e|].
  - now apply (endsInError_app _ [_; _]); [repeat constructor|].
  - now repeat constructor.
Qed.

Lemma listenLoop_S (n : nat) s w :
  listenLoop (S n) s w =
  match tick s w with
  | (Some e, w1, e1) => (Returned (Some e), w1, e1)
  | (None, w1, e1) =>
      match listenLoop n s w1 with
      | (r, w2, e2) => (r, w2, e1 ++ e2)
      end
  end.
Proof.
  cbn [listenLoop]. unfold bind at 1.
  destruct (tick s w) as [[[e|] w1] e1]; [|reflexivity].
  unfold ret. now rewrite app_nil_r.
Qed.

Lemma listenLoop_outcome (n : nat) s w :
  outcomeAtFirstError (listenLoop n s w).
Proof.
  revert w. induction n as [|n IH]; intros w.
  - cbn. constructor.
  - rewrite listenLoop_S. pose proof (tick_stops s w) as Htick.
    destruct (tick s w) as [[[e|] w1] e1]; [exact Htick|].
    specialize (IH w1). destruct (listenLoop n s w1) as [[r w2] e2].
    unfold outcomeAtFirstError, stopsAtFirstError, resultOf, eventsOf in *.
    cbn [fst snd] in *. destruct r as [err|msg|].
    + now apply endsInError_app.
    + now apply Forall_app.
    + now apply Forall_app.
Qed.

Lemma Listen_eq (n : nat) s w :
  Listen n s w =
  if (Interval (config s) <=? 0)%Z
  then (Panicked "non-positive interval for NewTicker", w, [])
  else
    match setInitialIterators s w with
    | (Some e, w1, e1) => (Returned (Some e), w1, e1)
    | (None, w1, e1) =>
        match listenLoop n s w1 with
        | (r, w2, e2) => (r, w2, e1 ++ e2)
        end
    end.
Proof.
  unfold Listen. destruct (Interval (config s) <=? 0)%Z; [reflexivity|].
  unfold bind at 1.
  destruct (setInitialIterators s w) as [[[e|] w1] e1]; [|reflexivity].
  unfold ret. now rewrite app_nil_r.
Qed.

Lemma Listen_outcome (n : nat) s w : outcomeAtFirstError (Listen n s w).
Proof.
  rewrite Listen_eq. destruct (Interval (config s) <=? 0)%Z; [constructor|].
  pose proof (setInitialIterators_stops s w) as Hseed.
  destruct (setInitialIterators s w) as [[[e|] w1] e1]; [exact Hseed|].
  pose proof (listenLoop_outcome n s w1) as Hloop.
  destruct (listenLoop n s w1) as [[r w2] e2].
  unfold outcomeAtFirstError, stopsAtFirstError, resultOf, eventsOf in *.
  cbn [fst snd] in *. destruct r as [err|msg|].
  - now apply endsInError_app.
  - now apply Forall_app.
  - now apply Forall_app.
Qed.

(** *** Which events the loops emit *)

Lemma forShards_Forall (P : Event -> Prop) (body : Shard -> M Svc St error) :
  (forall shard w, Forall P (eventsOf (body shard w))) ->
  forall shards w, Forall P (eventsOf (forShards body shards w)).
Proof.
  intros Hbody shards. induction shards as [|shard rest IH]; intros w.
  - constructor.
  - rewrite forShards_cons. specialize (Hbody shard w).
    destruct (body shard w) as [[[e|] w1] e1]; [exact Hbody|].
    specialize (IH w1). destruct (forShards body rest w1) as [[r w2] e2].
    unfold eventsOf in *. cbn [snd] in *. now apply Forall_app.
Qed.

Lemma seedShard_events s shard w :
  Forall (fun ev => shardEvent ev = true) (eventsOf (seedShard s shard w)).
Proof.
  unfold eventsOf. unfold_step. split_calls; repeat constructor.
Qed.

Lemma pollShard_events s shard w :
  Forall (fun ev => shardEvent ev = true) (eventsOf (pollShard s shard w)).
Proof.
  unfold eventsOf. unfold_step. split_calls; repeat constructor.
Qed.

Lemma ticksOf_app evs1 evs2 :
  ticksOf (evs1 ++ evs2) = ticksOf evs1 + ticksOf evs2.
Proof.
  induction evs1 as [|ev evs1 IH]; [reflexivity|].
  destruct ev; cbn; now rewrite ?IH.
Qed.

Lemma ticksOf_shardEvents evs :
  Forall (fun ev => shardEvent ev = true) evs -> ticksOf evs = 0.
Proof.
  induction 1 as [|ev evs Hev _ IH]; [reflexivity|].
  destruct ev; cbn in *; congruence.
Qed.

Lemma tick_ticks s w : ticksOf (eventsOf (tick s w)) = 1.
Proof.
  pose proof (forShards_Forall _ _ (pollShard_events s) (Shards s) w) as Hloop.
  unfold tick, bind, log, emit.
  destruct (forShards (pollShard s) (Shards s) w) as [[r w1] e1].
  unfold eventsOf in *. cbn [snd app ticksOf] in *.
  now rewrite (ticksOf_shardEvents _ Hloop).
Qed.

Lemma tick_no_describe s w :
  Forall (fun ev => shardEvent ev = true \/ ev = EvTick) (eventsOf (tick s w)).
Proof.
  pose proof (forShards_Forall _ _ (pollShard_events s) (Shards s) w) as Hloop.
  unfold tick, bind, log, emit.
  destruct (forShards (pollShard s) (Shards s) w) as [[r w1] e1].
  unfold eventsOf in *. cbn [snd app] in *.
  constructor; [now right|]. constructor; [now left|].
  eapply Forall_impl; [exact Hloop|]. intros ev Hev. now left.
Qed.

(** A loop that has not returned has taken every tick delivered so far;
    the loop itself never panics. *)
Lemma listenLoop_progress (n : nat) s w :
  match resultOf (listenLoop n s w) with
  | Blocked => ticksOf (eventsOf (listenLoop n s w)) = n
  | Returned err => err <> None
  | Panicked _ => False
  end
  /\ Forall (fun ev => shardEvent ev = true \/ ev = EvTick)
        (eventsOf (listenLoop n s w)).
Proof.
  revert w. induction n as [|n IH]; intros w.
  - split; [reflexivity|constructor].
  - rewrite listenLoop_S.
    pose proof (tick_ticks s w) as Hone.
    pose proof (tick_no_describe s w) as Hkind.
    destruct (tick s w) as [[[e|] w1] e1]; [now split|].
    specialize (IH w1) as [IH1 IH2].
    destruct (listenLoop n s w1) as [[r w2] e2].
    unfold resultOf, eventsOf in *. cbn [fst snd] in *.
    split; [|now apply Forall_app].
    destruct r as [err|msg|]; try assumption.
    rewrite ticksOf_app. lia.
Qed.

Lemma Listen_events (n : nat) s w :
  Forall (fun ev => shardEvent ev = true \/ ev = EvTick)
    (eventsOf (Listen n s w)).
Proof.
  rewrite Listen_eq. destruct (Interval (config s) <=? 0)%Z; [constructor|].
  pose proof (forShards_Forall _ _ (seedShard_events s) (Shards s) w) as Hseed.
  unfold setInitialIterators, bind, log, emit.
  destruct (forShards (seedShard s) (Shards s) w) as [[r w1] e1].
  unfold eventsOf in *. cbn [snd app] in *.
  assert (Hpre : Forall (fun ev => shardEvent ev = true \/ ev = EvTick)
                   (EvLog ["level"; "info"; "msg";
                           "getting initial shard iterators for all shards"]
                    :: e1)).
  { constructor; [now left|].
    eapply Forall_impl; [exact Hseed|]. intros ev Hev. now left. }
  destruct r as [e|]; [exact Hpre|].
  pose proof (listenLoop_progress n s w1) as [_ Hloop].
  destruct (listenLoop n s w1) as [[r w2] e2]. cbn [snd] in *.
  now apply (Forall_app _ (_ :: _)).
Qed.

Lemma Listen_blocked_ticks (n : nat) s w :
  (0 < Interval (config s))%Z ->
  resultOf (Listen n s w) = Blocked ->
  ticksOf (eventsOf (Listen n s w)) = n.
Proof.
  intros Hpos. rewrite Listen_eq.
  destruct (Z.leb_spec (Interval (config s)) 0) as [Hle|_]; [lia|].
  pose proof (forShards_Forall _ _ (seedShard_events s) (Shards s) w) as Hseed.
  unfold setInitialIterators, bind, log, emit.
  destruct (forShards (seedShard s) (Shards s) w) as [[r w1] e1].
  unfold eventsOf, resultOf in *. cbn [fst snd app] in *.
  destruct r as [e|]; [discriminate|].
  pose proof (listenLoop_progress n s w1) as [Hloop _].
  destruct (listenLoop n s w1) as [[r w2] e2]. cbn [fst snd] in *.
  intros ->. cbn [ticksOf]. rewrite ticksOf_app.
  now rewrite (ticksOf_shardEvents _ Hseed).
Qed.

(** C10. Whenever [Listen] has returned, the error it returned is not nil
    and is the error of the last call it made (a seeding request, a store
    read, a fetch or a store update), every earlier call having succeeded.
    As long as no call has failed, [Listen] has not returned: with a
    positive interval it is blocked waiting for the next tick, having
    gone through every tick delivered so far. *)
Theorem Listen_returns_only_the_first_error (ticks : nat) s w
  (r : Outcome) (w' : World Svc St) evs :
  Listen ticks s w = (r, w', evs) ->
  (forall err, r = Returned err ->
     err <> None
     /\ exists pre ev,
          evs = pre ++ [ev] /\ listenCall ev = true /\ ev_err ev = err
          /\ Forall noError pre)
  /\ (Forall noError evs ->
      (forall err, r <> Returned err)
      /\ ((0 < Interval (config s))%Z ->
          r = Blocked /\ ticksOf evs = ticks)).
Proof.
  intros Hrun.
  pose proof (Listen_outcome ticks s w) as Hout.
  pose proof (Listen_events ticks s w) as Hkind.
  pose proof (Listen_blocked_ticks ticks s w) as Hticks.
  pose proof (Listen_eq ticks s w) as Heq.
  rewrite Hrun in *.
  unfold outcomeAtFirstError, resultOf, eventsOf in *. cbn [fst snd] in *.
  split.
  - intros err ->. destruct Hout as [Hne (pre & ev & -> & Herr & Hpre)].
    split; [exact Hne|]. exists pre, ev. repeat split; try assumption.
    apply Forall_app in Hkind as [_ Hev].
    inversion Hev as [|? ? Hk _]; subst.
    destruct ev; try reflexivity; cbn in Hne; try congruence.
    destruct Hk as [Hk|Hk]; discriminate.
  - intros Hclean. split.
    + intros err ->. now apply (endsInError_not_clean _ _ Hout).
    + intros Hpos. destruct r as [err|msg|].
      * exfalso. now apply (endsInError_not_clean _ _ Hout).
      * exfalso. destruct (Z.leb_spec (Interval (config s)) 0) as [Hle|_];
          [lia|].
        destruct (setInitialIterators s w) as [[[e|] w1] e1]; [discriminate|].
        pose proof (listenLoop_progress ticks s w1) as [Hloop _].
        destruct (listenLoop ticks s w1) as [[r2 w2] e2].
        unfold resultOf in Hloop. cbn [fst] in Hloop.
        injection Heq as Hr _ _. subst r2. exact Hloop.
      * split; [reflexivity|]. now apply Hticks.
Qed.

(** *** Construction *)

(** C4. [NewStream] makes one call, the describe call, and never touches
    the store. When that call fails, [NewStream] returns its error and a
    nil handle; when it succeeds with a description that lists no shard,
    [NewStream] returns the error "kcl: stream has 0 shards" and a nil
    handle. *)
Theorem NewStream_fails_without_store_writes (endpoint stream : string)
  (cfg : Config) w (resp : kinesis.DescribeStreamOutput.t) (err : error)
  (svc' : Svc) :
  kinesis.DescribeStream (describeInput stream) (svc w) = ((resp, err), svc') ->
  let run := NewStream endpoint stream cfg w in
  store (worldOf run) = store w
  /\ eventsOf run = [EvDescribeStream (describeInput stream) resp err]
  /\ Forall (fun ev => isStoreEvent ev = false) (eventsOf run)
  /\ (err <> None -> resultOf run = Return (None, err))
  /\ (err = None ->
      forall description,
        kinesis.DescribeStreamOutput.StreamDescription resp = Some description ->
        kinesis.StreamDescription.Shards description = [] ->
        resultOf run = Return (None, Some "kcl: stream has 0 shards")).
Proof.
  intros Hcall. cbv zeta.
  unfold NewStream, bind, svc_DescribeStream, ret, worldOf, eventsOf, resultOf.
  fold (describeInput stream). rewrite Hcall. cbn [fst snd].
  destruct err as [e|].
  - cbn. repeat split; try congruence. repeat constructor.
  - destruct (kinesis.DescribeStreamOutput.StreamDescription resp) as [d|].
    + destruct (makeShards [] (kinesis.StreamDescription.Shards d))
        as [shards|msg] eqn:Hmk.
      * destruct (Nat.eqb (length shards) 0) eqn:Hlen; cbn.
        all: repeat split; try congruence; try (repeat constructor).
        intros _ description [= <-] Hnil. rewrite Hnil in Hmk.
        cbn in Hmk. injection Hmk as <-. discriminate.
      * cbn. repeat split; try congruence; try (repeat constructor).
        intros _ description [= <-] Hnil. rewrite Hnil in Hmk. discriminate.
    + cbn. repeat split; try congruence. repeat constructor.
Qed.

(** *** A failing fetch *)

Lemma pollShard_fetch_fails s shard w (iterator : string) (st1 : St)
  (resp : kinesis.GetRecordsOutput.t) (e : string) (svc2 : Svc) :
  GetShardIterator (Name s) (ID shard) (store w) = ((iterator, None), st1) ->
  kinesis.GetRecords (fetchInput s iterator) (svc w) = ((resp, Some e), svc2) ->
  pollShard s shard w
  = (Some e, {| svc := svc2; store := st1 |},
     failedPoll s shard iterator resp (Some e)).
Proof.
  intros Hget Hfetch. unfold_step. rewrite Hget. cbn. now rewrite Hfetch.
Qed.

Lemma pollShard_shards s shard w :
  Forall (fun ev => forall X, ev_shard ev = Some X -> X = ID shard)
    (eventsOf (pollShard s shard w)).
Proof.
  unfold eventsOf. unfold_step. split_calls; repeat constructor.
  all: cbn; congruence.
Qed.

Lemma forShards_pollShard_shards s (shards : list Shard) w :
  Forall (fun ev => forall X, ev_shard ev = Some X -> In X (map ID shards))
    (eventsOf (forShards (pollShard s) shards w)).
Proof.
  revert w. induction shards as [|shard rest IH]; intros w.
  - constructor.
  - rewrite forShards_cons. pose proof (pollShard_shards s shard w) as Hone.
    assert (Hhead : Forall (fun ev => forall X, ev_shard ev = Some X ->
                                      In X (map ID (shard :: rest)))
                      (eventsOf (pollShard s shard w))).
    { eapply Forall_impl; [exact Hone|]. intros ev Hev X HX.
      left. symmetry. now apply Hev. }
    destruct (pollShard s shard w) as [[[e|] w1] e1]; [exact Hhead|].
    specialize (IH w1). destruct (forShards (pollShard s) rest w1) as [[r w2] e2].
    unfold eventsOf in *. cbn [snd] in *. apply Forall_app. split; [exact Hhead|].
    eapply Forall_impl; [exact IH|]. intros ev Hev X HX. right. now apply Hev.
Qed.

Lemma listenLoop_add (k n : nat) s w :
  listenLoop (k + n) s w =
  match listenLoop k s w with
  | (Blocked, w1, e1) =>
      match listenLoop n s w1 with
      | (r, w2, e2) => (r, w2, e1 ++ e2)
      end
  | other => other
  end.
Proof.
  revert w. induction k as [|k IH]; intros w.
  - cbn. now destruct (listenLoop n s w) as [[r w2] e2].
  - rewrite Nat.add_succ_l, !listenLoop_S.
    destruct (tick s w) as [[[e|] w1] e1]; [reflexivity|].
    rewrite IH. destruct (listenLoop k s w1) as [[[err|msg|] w2] e2];
      try reflexivity.
    destruct (listenLoop n s w2) as [[r w3] e3]. now rewrite app_assoc.
Qed.

(** C3. When, in a tick, the shards before [shard] were polled without
    error, the store read for [shard] succeeds and the fetch for [shard]
    fails with [e], the tick ends with that failed fetch: no store update
    follows it, nothing is read or fetched for a later shard, the store is
    as the read left it, and [Listen] returns [e]. *)
Theorem fetch_failure_stops_the_tick s (pre post : list Shard) (shard : Shard)
  w w1 evs1 (iterator : string) (st1 : St)
  (resp : kinesis.GetRecordsOutput.t) (e : string) (svc2 : Svc) :
  Shards s = pre ++ shard :: post ->
  forShards (pollShard s) pre w = (None, w1, evs1) ->
  GetShardIterator (Name s) (ID shard) (store w1) = ((iterator, None), st1) ->
  kinesis.GetRecords (fetchInput s iterator) (svc w1) = ((resp, Some e), svc2) ->
  let failed := failedPoll s shard iterator resp (Some e) in
  let w2 := {| svc := svc2; store := st1 |} in
  let evs := tickStart ++ evs1 ++ failed in
  tick s w = (Some e, w2, evs)
  /\ Forall (fun ev => isStoreUpdate ev = false) failed
  /\ (~ In (ID shard) (map ID pre) ->
      Forall (fun ev => updatesShard (ID shard) ev = false) evs)
  /\ (forall later,
        In later post -> ~ In (ID later) (map ID (pre ++ [shard])) ->
        Forall (fun ev => ev_shard ev <> Some (ID later)) evs)
  /\ (forall n, listenLoop (S n) s w = (Returned (Some e), w2, evs))
  /\ (forall w0 wS evS k evK n,
        (0 < Interval (config s))%Z ->
        setInitialIterators s w0 = (None, wS, evS) ->
        listenLoop k s wS = (Blocked, w, evK) ->
        Listen (k + S n) s w0 = (Returned (Some e), w2, evS ++ evK ++ evs)).
Proof.
  intros Hshards Hpre Hget Hfetch. cbv zeta.
  pose proof (forShards_pollShard_shards s pre w) as Hmention.
  rewrite Hpre in Hmention. unfold eventsOf in Hmention. cbn [snd] in Hmention.
  assert (Htick : tick s w
                  = (Some e, {| svc := svc2; store := st1 |},
                     tickStart ++ evs1 ++ failedPoll s shard iterator resp (Some e))).
  { unfold tick, bind at 1 2, log, emit. rewrite Hshards, forShards_app, Hpre.
    rewrite forShards_cons.
    now rewrite (pollShard_fetch_fails _ _ _ _ _ _ _ _ Hget Hfetch). }
  assert (Hloop : forall n, listenLoop (S n) s w
                  = (Returned (Some e), {| svc := svc2; store := st1 |},
                     tickStart ++ evs1 ++ failedPoll s shard iterator resp (Some e))).
  { intros n. now rewrite listenLoop_S, Htick. }
  split; [exact Htick|]. split; [repeat constructor|].
  split; [|split; [|split; [exact Hloop|]]].
  - intros Hfresh. repeat constructor. apply Forall_app. split.
    + eapply Forall_impl; [exact Hmention|]. intros ev Hev.
      destruct ev; try reflexivity. cbn. apply bool_decide_eq_false.
      intros ->. apply Hfresh. now apply Hev.
    + repeat constructor.
  - intros later Hin Hfresh.
    assert (Hne : ID later <> ID shard).
    { intros Heq. apply Hfresh. rewrite map_app, in_app_iff. right.
      left. now symmetry. }
    repeat constructor; try discriminate. apply Forall_app. split.
    + eapply Forall_impl; [exact Hmention|]. intros ev Hev Heq.
      apply Hfresh. rewrite map_app, in_app_iff. left. now apply Hev.
    + repeat constructor; cbn; congruence.
  - intros w0 wS evS k evK n Hpos Hseed Hk.
    rewrite Listen_eq.
    destruct (Z.leb_spec (Interval (config s)) 0) as [Hle|_]; [lia|].
    now rewrite Hseed, listenLoop_add, Hk, Hloop.
Qed.

End AnyStore.

(** ** The program on the local store *)

Section OnLocalStore.

Context {Svc : Type} `{!kinesis.API Svc}.

Implicit Types (s : Stream) (w : World Svc LocalStore.t) (evs : list Event).

Lemma seedShard_local s shard w :
  seedShard s shard w =
  match kinesis.GetShardIterator (seedInput s shard) (svc w) with
  | ((resp, Some e), svc') =>
      (Some e, {| svc := svc'; store := store w |},
       [EvGetShardIterator (seedInput s shard) resp (Some e)])
  | ((resp, None), svc') =>
      (None,
       {| svc := svc';
          store :=
            written (key (Name s) (ID shard))
              (aws.StringValue (kinesis.GetShardIteratorOutput.ShardIterator resp))
              (store w) |},
       seededShard s shard resp)
  end.
Proof. unfold_step. split_calls; reflexivity. Qed.

Lemma pollShard_local s shard w :
  pollShard s shard w =
  let iterator := position (store w) (Name s) (ID shard) in
  match kinesis.GetRecords (fetchInput s iterator) (svc w) with
  | ((resp, Some e), svc') =>
      (Some e, {| svc := svc'; store := store w |},
       failedPoll s shard iterator resp (Some e))
  | ((resp, None), svc') =>
      (None,
       {| svc := svc';
          store :=
            written (key (Name s) (ID shard))
              (aws.StringValue (kinesis.GetRecordsOutput.NextShardIterator resp))
              (store w) |},
       polledShard s shard iterator resp)
  end.
Proof. unfold_step. unfold position. cbn. split_calls; reflexivity. Qed.

(** *** Seeding *)





Lemma seeding_dom s (shards : list Shard) w w' evs :
  forShards (seedShard s) shards w = (None, w', evs) ->
  dom (LocalStore.m (store w'))
  = dom (LocalStore.m (store w))
      ∪ list_to_set (map (fun shard => key (Name s) (ID shard)) shards).
Proof.
  revert w w' evs. induction shards as [|head rest IH]; intros w w' evs Hrun.
  - injection Hrun as <- <-. cbn. set_solver.
  - rewrite forShards_cons, seedShard_local in Hrun.
    destruct (kinesis.GetShardIterator (seedInput s head) (svc w))
      as [[resp [e|]] svc']; [discriminate|].
    match type of Hrun with
    | context [forShards _ _ ?w1] =>
        specialize (IH w1); destruct (forShards (seedShard s) rest w1)
          as [[r w2] e2]
    end.
    injection Hrun as -> -> <-. rewrite (IH w' e2 eq_refl). cbn.
    rewrite dom_insert_L. set_solver.
Qed.

Lemma seeding_size s (shards : list Shard) w w' evs :
  NoDup (map ID shards) ->
  (forall shard, In shard shards ->
     LocalStore.m (store w) !! key (Name s) (ID shard) = None) ->
  forShards (seedShard s) shards w = (None, w', evs) ->
  size (LocalStore.m (store w'))
  = size (LocalStore.m (store w)) + length shards.
Proof.
  revert w w' evs. induction shards as [|head rest IH];
    intros w w' evs Hnodup Hfree Hrun.
  - injection Hrun as <- <-. cbn. lia.
  - cbn in Hnodup. apply NoDup_cons in Hnodup as [Hhead Hrest].
  rewrite list_elem_of_In in Hhead.
    rewrite forShards_cons, seedShard_local in Hrun.
    destruct (kinesis.GetShardIterator (seedInput s head) (svc w))
      as [[resp [e|]] svc']; [discriminate|].
    match type of Hrun with
    | context [forShards _ _ ?w1] =>
        specialize (IH w1); destruct (forShards (seedShard s) rest w1)
          as [[r w2] e2]
    end.
    injection Hrun as -> -> <-. rewrite (IH w' e2 Hrest).
    + cbn. rewrite map_size_insert_None; [lia|]. apply Hfree. now left.
    + intros shard Hin. cbn. rewrite lookup_insert_ne.
      * apply Hfree. now right.
      * apply key_ne_shard. intros Heq. apply Hhead. rewrite Heq.
        now apply in_map.
    + reflexivity.
Qed.


(** *** Polling *)






Lemma tick_local s w :
  tick s w =
  match forShards (pollShard s) (Shards s) w with
  | (r, w1, e1) => (r, w1, tickStart ++ e1)
  end.
Proof.
  unfold tick, bind, log, emit.
  now destruct (forShards (pollShard s) (Shards s) w) as [[r w1] e1].
Qed.


(** *** The handoff discipline along a whole run *)

Lemma tokenAfter_app (X : string) cur evs1 evs2 :
  tokenAfter X cur (evs1 ++ evs2) = tokenAfter X (tokenAfter X cur evs1) evs2.
Proof. apply fold_left_app. Qed.

Lemma handoffFrom_app (X : string) cur evs1 evs2 :
  handoffFrom X cur evs1 ->
  handoffFrom X (tokenAfter X cur evs1) evs2 ->
  handoffFrom X cur (evs1 ++ evs2).
Proof.
  revert cur. induction evs1 as [|ev evs1 IH]; intros cur H1 H2; [exact H2|].
  destruct H1 as [Hev H1]. split; [exact Hev|]. now apply IH.
Qed.

Lemma storeHolds_none s (X : string) w : storeHolds s X None w.
Proof. intros tok [=]. Qed.

Lemma seedShard_handoff s shard w (X : string) cur :
  let run := seedShard s shard w in
  handoffFrom X cur (eventsOf run)
  /\ (storeHolds s X cur w ->
      storeHolds s X (tokenAfter X cur (eventsOf run)) (worldOf run))
  /\ (cur <> None -> tokenAfter X cur (eventsOf run) <> None)
  /\ (resultOf run = None -> ID shard = X ->
      tokenAfter X cur (eventsOf run) <> None).
Proof.
  cbv zeta. rewrite seedShard_local.
  destruct (kinesis.GetShardIterator (seedInput s shard) (svc w))
    as [[resp [e|]] svc']; unfold eventsOf, worldOf, resultOf, tokenAfter;
    cbn; unfold aws.String.
  - repeat split; try tauto; try discriminate.
  - case_bool_decide as Hid.
    + injection Hid as ->. repeat split; try discriminate.
      intros _ tok [= <-]. cbn. apply lookup_insert_eq.
    + repeat split; try tauto; try congruence.
      intros Hold tok ->. cbn. rewrite lookup_insert_ne.
      * now apply Hold.
      * apply key_ne_shard. congruence.
Qed.

Lemma seeding_handoff s (shards : list Shard) w (X : string) cur :
  let run := forShards (seedShard s) shards w in
  handoffFrom X cur (eventsOf run)
  /\ (storeHolds s X cur w ->
      storeHolds s X (tokenAfter X cur (eventsOf run)) (worldOf run))
  /\ (cur <> None -> tokenAfter X cur (eventsOf run) <> None)
  /\ (resultOf run = None -> In X (map ID shards) ->
      tokenAfter X cur (eventsOf run) <> None).
Proof.
  cbv zeta. revert w cur. induction shards as [|shard rest IH]; intros w cur.
  - cbn. repeat split; tauto.
  - rewrite forShards_cons.
    pose proof (seedShard_handoff s shard w X cur) as Hone. cbv zeta in Hone.
    destruct (seedShard s shard w) as [[[e|] w1] e1].
    + destruct Hone as (H1 & H2 & H3 & _).
      repeat split; try assumption. discriminate.
    + specialize (IH w1 (tokenAfter X cur e1)).
      destruct (forShards (seedShard s) rest w1) as [[r w2] e2].
      unfold eventsOf, worldOf, resultOf in *. cbn [fst snd] in *.
      destruct Hone as (H1 & H2 & H3 & H4), IH as (I1 & I2 & I3 & I4).
      rewrite tokenAfter_app. split; [now apply handoffFrom_app|].
      split; [tauto|]. split; [tauto|].
      intros -> [Heq|Hin]; [|tauto]. apply I3. now apply H4.
Qed.

Lemma pollShard_handoff s shard w (X : string) cur :
  (ID shard = X -> cur <> None) ->
  storeHolds s X cur w ->
  let run := pollShard s shard w in
  handoffFrom X cur (eventsOf run)
  /\ storeHolds s X (tokenAfter X cur (eventsOf run)) (worldOf run)
  /\ (cur <> None -> tokenAfter X cur (eventsOf run) <> None).
Proof.
  intros Hseeded Hold. cbv zeta. rewrite pollShard_local. cbv zeta.
  assert (Hpass : ID shard = X ->
            exists tok, cur = Some tok /\
              position (store w) (Name s) (ID shard) = aws.StringValue tok).
  { intros Heq. destruct cur as [tok|]; [|now destruct Hseeded].
    exists tok. split; [reflexivity|]. unfold position.
    rewrite Heq. now rewrite (Hold tok eq_refl). }
  destruct (kinesis.GetRecords _ (svc w)) as [[resp [e|]] svc'];
    unfold eventsOf, worldOf, tokenAfter; cbn; unfold aws.String.
  - repeat split; try tauto.
    intros Heq. destruct (Hpass Heq) as (tok & -> & ->). now exists tok.
  - repeat split; try tauto.
    + intros Heq. destruct (Hpass Heq) as (tok & -> & ->). now exists tok.
    + case_bool_decide as Hid.
      * subst X. intros tok [= <-]. cbn. apply lookup_insert_eq.
      * intros tok ->. cbn. rewrite lookup_insert_ne; [now apply Hold|].
        now apply key_ne_shard.
    + case_bool_decide; [discriminate|tauto].
Qed.

Lemma polling_handoff s (shards : list Shard) w (X : string) cur :
  (In X (map ID shards) -> cur <> None) ->
  storeHolds s X cur w ->
  let run := forShards (pollShard s) shards w in
  handoffFrom X cur (eventsOf run)
  /\ storeHolds s X (tokenAfter X cur (eventsOf run)) (worldOf run)
  /\ (cur <> None -> tokenAfter X cur (eventsOf run) <> None).
Proof.
  cbv zeta. revert w cur. induction shards as [|shard rest IH];
    intros w cur Hseeded Hold.
  - cbn. repeat split; tauto.
  - rewrite forShards_cons.
    destruct (pollShard_handoff s shard w X cur) as (H1 & H2 & H3);
      [intros Heq; apply Hseeded; now left|exact Hold|].
    destruct (pollShard s shard w) as [[[e|] w1] e1]; [now repeat split|].
    unfold eventsOf, worldOf in H1, H2, H3. cbn [fst snd] in H1, H2, H3.
    destruct (IH w1 (tokenAfter X cur e1)) as (I1 & I2 & I3);
      [intros Hin; apply H3, Hseeded; now right|exact H2|].
    destruct (forShards (pollShard s) rest w1) as [[r w2] e2].
    unfold eventsOf, worldOf in *. cbn [fst snd] in *.
    rewrite tokenAfter_app. split; [now apply handoffFrom_app|].
    split; [exact I2|]. tauto.
Qed.

Lemma listenLoop_handoff (n : nat) s w (X : string) cur :
  (In X (map ID (Shards s)) -> cur <> None) ->
  storeHolds s X cur w ->
  handoffFrom X cur (eventsOf (listenLoop n s w)).
Proof.
  revert w cur. induction n as [|n IH]; intros w cur Hseeded Hold;
    [exact I|].
  rewrite listenLoop_S, tick_local.
  destruct (polling_handoff s (Shards s) w X cur Hseeded Hold)
    as (H1 & H2 & H3).
  destruct (forShards (pollShard s) (Shards s) w) as [[[e|] w1] e1].
  - unfold eventsOf in *. cbn [snd] in *. now repeat split.
  - unfold eventsOf, worldOf in H1, H2, H3. cbn [fst snd] in H1, H2, H3.
    specialize (IH w1 (tokenAfter X cur e1)).
    destruct (listenLoop n s w1) as [[r w2] e2].
    unfold eventsOf in *. cbn [snd] in *.
    apply (handoffFrom_app X cur (tickStart ++ e1)).
    + now repeat split.
    + apply IH; [|exact H2]. intros Hin. now apply H3, Hseeded.
Qed.

Lemma Listen_handoff (n : nat) s w (X : string) :
  handoffFrom X None (eventsOf (Listen n s w)).
Proof.
  rewrite Listen_eq. destruct (Interval (config s) <=? 0)%Z; [exact I|].
  unfold setInitialIterators, bind at 1, log, emit.
  destruct (seeding_handoff s (Shards s) w X None) as (H1 & H2 & _ & H4).
  destruct (forShards (seedShard s) (Shards s) w) as [[[e|] w1] e1].
  - unfold eventsOf in *. cbn [snd app] in *. now split.
  - unfold eventsOf, worldOf, resultOf in H1, H2, H4.
    cbn [fst snd] in H1, H2, H4.
    pose proof (listenLoop_handoff n s w1 X (tokenAfter X None e1)) as Hloop.
    destruct (listenLoop n s w1) as [[r w2] e2].
    unfold eventsOf in *. cbn [snd app] in *. split; [exact I|].
    apply handoffFrom_app; [exact H1|]. apply Hloop.
    + now apply H4.
    + apply H2, storeHolds_none.
Qed.

Lemma tokenAfter_present (X : string) cur (ev : Event) :
  (forall tok, cur = Some tok -> aws.StringValue tok <> "") ->
  (forall tok, returnedToken ev = Some tok -> aws.StringValue tok <> "") ->
  forall tok, updToken X cur ev = Some tok -> aws.StringValue tok <> "".
Proof.
  intros Hcur Hev tok.
  destruct ev as [| |input resp [e|]| |? ? ? ?|shard input resp [e|]| |];
    cbn; try apply Hcur.
  all: case_bool_decide; try apply Hcur.
  all: intros [= <-]; now apply Hev.
Qed.

Lemma handoff_nonempty (X : string) cur evs :
  handoffFrom X cur evs ->
  (forall tok, cur = Some tok -> aws.StringValue tok <> "") ->
  tokensPresent evs ->
  Forall (fun ev => ev_shard ev = Some X -> fetchedEmpty ev = false) evs.
Proof.
  revert cur. induction evs as [|ev evs IH]; intros cur Hh Hcur Hpresent;
    [constructor|].
  destruct Hh as [Hev Hrest].
  apply Forall_cons in Hpresent as [Hhead Hpresent].
  constructor.
  - destruct ev; try reflexivity. cbn. intros [= ->].
    destruct (Hev eq_refl) as (tok & -> & ->). cbn.
    apply bool_decide_eq_false. now apply Hcur.
  - apply (IH (updToken X cur ev)); try assumption.
    now apply tokenAfter_present.
Qed.

(** C6, as the code has it. Every fetch for a shard comes after a token
    was handed back for that shard - so every shard is seeded before its
    first fetch - and is issued with the string of the token handed back
    most recently for it, the seed or the last [NextShardIterator]. No
    fetch is issued with an empty iterator as long as every token handed
    back was a non-empty string. *)
Theorem fetch_passes_the_last_returned_token (ticks : nat) s w
  (r : Outcome) w' evs :
  Listen ticks s w = (r, w', evs) ->
  (forall X, handoffFrom X None evs)
  /\ (tokensPresent evs -> Forall (fun ev => fetchedEmpty ev = false) evs).
Proof.
  intros Hrun.
  assert (Hall : forall X, handoffFrom X None evs).
  { intros X. pose proof (Listen_handoff ticks s w X) as Hh.
    now rewrite Hrun in Hh. }
  split; [exact Hall|]. intros Hpresent.
  apply Forall_forall. intros ev Hin.
  destruct ev; try reflexivity.
  pose proof (handoff_nonempty shard None evs (Hall shard)) as Hne.
  rewrite Forall_forall in Hne. apply (Hne ltac:(discriminate) Hpresent _ Hin).
  reflexivity.
Qed.

End OnLocalStore.

(** ** The scenario of the specification, run on the model *)


(** After the first tick the store holds "it-0b" and "it-1b". *)
Example orders_after_first_tick :
  let run := Listen 1 orders (freshWorld ordersScript) in
  resultOf run = Blocked
  /\ position (store (worldOf run)) "orders" "shard-0" = "it-0b"
  /\ position (store (worldOf run)) "orders" "shard-1" = "it-1b"
  /\ List.filter
       (fun ev => match ev with EvHandler _ => true | _ => false end)
       (eventsOf run)
     = [EvHandler [record "1"; record "2"; record "3"]; EvHandler []].
Proof. vm_compute. repeat split. Qed.

(** C6, as stated, fails: with shard-0 closed, the second tick issues the
    fetch for shard-0 with the empty string. *)
Lemma closed_shard_is_fetched_with_empty_iterator :
  ~ neverFetchesEmpty orders (freshWorld closedShardScript).
Proof.
  intros Hnever.
  assert (Hex : existsb fetchedEmpty
                  (eventsOf (Listen 2 orders (freshWorld closedShardScript)))
                = true) by (vm_compute; reflexivity).
  apply existsb_exists in Hex as (ev & Hin & Hempty).
  rewrite (Hnever 2 ev Hin) in Hempty. discriminate.
Qed.

(** C6 as the code has it, on the scenario of the specification: every
    token handed back is present and every fetch passes the last one. *)
Lemma fetch_passes_the_last_returned_token_orders :
  let run := Listen 1 orders (freshWorld ordersScript) in
  (Listen 1 orders (freshWorld ordersScript)
   = (resultOf run, worldOf run, eventsOf run)
   /\ tokensPresent (eventsOf run))
  /\ (forall X, handoffFrom X None (eventsOf run))
  /\ Forall (fun ev => fetchedEmpty ev = false) (eventsOf run).
Proof.
  cbv zeta.
  assert (Hrun : Listen 1 orders (freshWorld ordersScript)
                 = (resultOf (Listen 1 orders (freshWorld ordersScript)),
                    worldOf (Listen 1 orders (freshWorld ordersScript)),
                    eventsOf (Listen 1 orders (freshWorld ordersScript))))
    by (vm_compute; reflexivity).
  assert (Hpresent : tokensPresent
                       (eventsOf (Listen 1 orders (freshWorld ordersScript)))).
  { unfold tokensPresent.
    set (evs := eventsOf (Listen 1 orders (freshWorld ordersScript))).
    vm_compute in evs. subst evs.
    repeat constructor; cbn; intros tok Htok; try discriminate;
      injection Htok as <-; discriminate. }
  split; [exact (conj Hrun Hpresent)|].
  split.
  - exact (proj1 (fetch_passes_the_last_returned_token _ _ _ _ _ _ Hrun)).
  - exact (proj2 (fetch_passes_the_last_returned_token _ _ _ _ _ _ Hrun)
             Hpresent).
Defined.



(** C3 on the scenario: the second tick's fetch for shard-0 is throttled;
    the tick ends there, shard-1 is not touched, and [Listen] returns the
    error. *)
Lemma fetch_failure_orders :
  let w0 := freshWorld throttledScript in
  let seeding := setInitialIterators orders w0 in
  let first := listenLoop 1 orders (worldOf seeding) in
  let w := worldOf first in
  let call := kinesis.GetRecords (fetchInput orders "it-0b") (svc w) in
  let resp := fst (fst call) in
  let w2 := {| svc := snd call; store := store w |} in
  let evs :=
    tickStart ++ [] ++ failedPoll orders shard0 "it-0b" resp (Some "throttled")
  in
  (Shards orders = [] ++ shard0 :: [shard1]
   /\ forShards (pollShard orders) [] w = (None, w, [])
   /\ GetShardIterator (Name orders) (ID shard0) (store w)
      = (("it-0b", None), store w)
   /\ call = ((resp, Some "throttled"), snd call))
  /\ tick orders w = (Some "throttled", w2, evs)
  /\ Forall (fun ev => updatesShard "shard-0" ev = false) evs
  /\ Forall (fun ev => ev_shard ev <> Some "shard-1") evs
  /\ Listen 2 orders w0
     = (Returned (Some "throttled"), w2,
        eventsOf seeding ++ eventsOf first ++ evs)
  /\ position (store w2) "orders" "shard-0" = "it-0b".
Proof.
  cbv zeta.
  set (w0 := freshWorld throttledScript).
  set (w := worldOf (listenLoop 1 orders
                       (worldOf (setInitialIterators orders w0)))).
  assert (Hshards : Shards orders = [] ++ shard0 :: [shard1]) by reflexivity.
  assert (Hpre : forShards (pollShard orders) [] w = (None, w, []))
    by reflexivity.
  assert (Hget : GetShardIterator (Name orders) (ID shard0) (store w)
                 = (("it-0b", None), store w))
    by (vm_compute; reflexivity).
  assert (Hfetch : kinesis.GetRecords (fetchInput orders "it-0b") (svc w)
                   = ((fst (fst (kinesis.GetRecords
                                   (fetchInput orders "it-0b") (svc w))),
                       Some "throttled"),
                      snd (kinesis.GetRecords
                             (fetchInput orders "it-0b") (svc w))))
    by (vm_compute; reflexivity).
  destruct (fetch_failure_stops_the_tick orders [] [shard1] shard0 w w []
              "it-0b" (store w) _ "throttled" _ Hshards Hpre Hget Hfetch)
    as (Htick & _ & Hupdate & Hlater & _ & HListen).
  split; [exact (conj Hshards (conj Hpre (conj Hget Hfetch)))|].
  split; [exact Htick|].
  split; [apply Hupdate; intros []|].
  split.
  { apply (Hlater shard1); [now left|]. cbn. intros [[=]|[]]. }
  split; [|vm_compute; reflexivity].
  apply (HListen w0 (worldOf (setInitialIterators orders w0))
           (eventsOf (setInitialIterators orders w0)) 1
           (eventsOf (listenLoop 1 orders
                        (worldOf (setInitialIterators orders w0)))) 0).
  - vm_compute. reflexivity.
  - vm_compute. reflexivity.
  - vm_compute. reflexivity.
Defined.

(** C4 on a stream without shards. *)
Lemma NewStream_empty_description :
  let w := freshWorld emptyScript in
  let run := NewStream "endpoint" "orders" ordersConfig w in
  kinesis.DescribeStream (describeInput "orders") (svc w)
  = ((emptyDescription, None),
     {| describes := []; iterators := []; fetches := [] |})
  /\ resultOf run = Return (None, Some "kcl: stream has 0 shards")
  /\ store (worldOf run) = NewLocalStore
  /\ eventsOf run = [EvDescribeStream (describeInput "orders")
                       emptyDescription None]
  /\ Forall (fun ev => isStoreEvent ev = false) (eventsOf run).
Proof.
  cbv zeta.
  assert (Hcall : kinesis.DescribeStream (describeInput "orders")
                    (svc (freshWorld emptyScript))
                  = ((emptyDescription, None),
                     {| describes := []; iterators := []; fetches := [] |}))
    by reflexivity.
  destruct (NewStream_fails_without_store_writes "endpoint" "orders"
              ordersConfig (freshWorld emptyScript) _ _ _ Hcall)
    as (Hstore & Hevents & Hnone & _ & Hempty).
  split; [exact Hcall|].
  split; [exact (Hempty eq_refl _ eq_refl eq_refl)|].
  split; [exact Hstore|]. split; [exact Hevents|exact Hnone].
Defined.

(** C10 on the scenario: after two ticks [Listen] has returned
    "throttled", the error of its last call; after one tick, no call
    having failed, it is blocked with one tick taken. *)
Lemma Listen_orders :
  let two := Listen 2 orders (freshWorld ordersScript) in
  let one := Listen 1 orders (freshWorld ordersScript) in
  (Listen 2 orders (freshWorld ordersScript)
   = (Returned (Some "throttled"), worldOf two, eventsOf two)
   /\ Listen 1 orders (freshWorld ordersScript)
      = (resultOf one, worldOf one, eventsOf one)
   /\ Forall noError (eventsOf one)
   /\ (0 < Interval (config orders))%Z)
  /\ (Some "throttled" <> None
      /\ exists pre ev,
           eventsOf two = pre ++ [ev] /\ listenCall ev = true
           /\ ev_err ev = Some "throttled" /\ Forall noError pre)
  /\ (resultOf one = Blocked /\ ticksOf (eventsOf one) = 1).
Proof.
  cbv zeta.
  assert (Htwo : Listen 2 orders (freshWorld ordersScript)
                 = (Returned (Some "throttled"),
                    worldOf (Listen 2 orders (freshWorld ordersScript)),
                    eventsOf (Listen 2 orders (freshWorld ordersScript))))
    by (vm_compute; reflexivity).
  assert (Hone : Listen 1 orders (freshWorld ordersScript)
                 = (resultOf (Listen 1 orders (freshWorld ordersScript)),
                    worldOf (Listen 1 orders (freshWorld ordersScript)),
                    eventsOf (Listen 1 orders (freshWorld ordersScript))))
    by (vm_compute; reflexivity).
  assert (Hclean : Forall noError
                     (eventsOf (Listen 1 orders (freshWorld ordersScript))))
    by (vm_compute; repeat constructor).
  assert (Hpos : (0 < Interval (config orders))%Z) by reflexivity.
  split; [exact (conj Htwo (conj Hone (conj Hclean Hpos)))|].
  split.
  - exact (proj1 (Listen_returns_only_the_first_error _ _ _ _ _ _ Htwo)
             _ eq_refl).
  - exact (proj2 (proj2 (Listen_returns_only_the_first_error _ _ _ _ _ _ Hone)
                    Hclean) Hpos).
Defined.

(** * Further properties of the code *)

(** ** Keys and histories of the local store *)

Lemma append_cons (c : Ascii.ascii) (s t : string) :
  String c s +:+ t = String c (s +:+ t).
Proof. reflexivity. Qed.

Lemma append_nil (t : string) : EmptyString +:+ t = t.
Proof. reflexivity. Qed.

Lemma append_length (s t : string) :
  String.length (s +:+ t) = String.length s + String.length t.
Proof.
  induction s as [|c s IH]; [reflexivity|].
  rewrite append_cons. cbn. now rewrite IH.
Qed.

Lemma append_inj_length (s1 s2 t1 t2 : string) :
  String.length s1 = String.length s2 ->
  s1 +:+ t1 = s2 +:+ t2 -> s1 = s2 /\ t1 = t2.
Proof.
  revert s2. induction s1 as [|c s1 IH]; intros [|c' s2] Hlen Heq;
    try discriminate.
  - now split.
  - rewrite !append_cons in Heq. cbn in Hlen.
    injection Hlen as Hlen. injection Heq as -> Heq.
    destruct (IH s2 Hlen Heq) as [-> ->]. now split.
Qed.

Lemma key_inj_dash_free (stream1 shard1 stream2 shard2 : string) :
  dashFree stream1 = true -> dashFree stream2 = true ->
  key stream1 shard1 = key stream2 shard2 ->
  stream1 = stream2 /\ shard1 = shard2.
Proof.
  unfold key. change ("-" +:+ shard1) with (String dash shard1).
  change ("-" +:+ shard2) with (String dash shard2).
  revert stream2. induction stream1 as [|c s1 IH]; intros [|c' s2] H1 H2 Heq;
    rewrite ?append_cons, ?append_nil in Heq; cbn in H1, H2.
  - injection Heq as ->. now split.
  - injection Heq as <- _. now rewrite Ascii.eqb_refl in H2.
  - injection Heq as -> _. now rewrite Ascii.eqb_refl in H1.
  - injection Heq as -> Heq.
    apply andb_prop in H1 as [_ H1]. apply andb_prop in H2 as [_ H2].
    destruct (IH s2 H1 H2 Heq) as [-> ->]. now split.
Qed.

Lemma key_inj_same_length (stream1 shard1 stream2 shard2 : string) :
  String.length shard1 = String.length shard2 ->
  key stream1 shard1 = key stream2 shard2 ->
  stream1 = stream2 /\ shard1 = shard2.
Proof.
  intros Hlen Heq. unfold key in Heq.
  assert (Hs : String.length stream1 = String.length stream2).
  { apply (f_equal String.length) in Heq.
    rewrite !append_length in Heq. lia. }
  destruct (append_inj_length _ _ _ _ Hs Heq) as [-> Hrest].
  split; [reflexivity|]. now apply (inj (String.app "-")) in Hrest.
Qed.

(** X1. A write for one pair leaves the value read for a different pair
    unchanged whenever the two pairs are of the same stream, or neither
    stream name holds the separator '-', or the two shard identifiers
    have the same length. *)
Theorem update_leaves_separable_pairs
  (stream1 shard1 stream2 shard2 iterator : string) (s : LocalStore.t) :
  (stream1, shard1) <> (stream2, shard2) ->
  stream1 = stream2
  \/ (dashFree stream1 = true /\ dashFree stream2 = true)
  \/ String.length shard1 = String.length shard2 ->
  fst (LocalStore.GetShardIterator stream2 shard2
         (snd (LocalStore.UpdateShardIterator stream1 shard1 iterator s)))
  = fst (LocalStore.GetShardIterator stream2 shard2 s).
Proof.
  intros Hne Hsep. apply get_after_update_other_key. intros Heq.
  apply Hne. destruct Hsep as [->|[[H1 H2]|Hlen]].
  - now rewrite (key_inj_shard _ _ _ Heq).
  - now destruct (key_inj_dash_free _ _ _ _ H1 H2 Heq) as [-> ->].
  - now destruct (key_inj_same_length _ _ _ _ Hlen Heq) as [-> ->].
Qed.

Lemma update_leaves_separable_pairs_orders :
  let s := snd (LocalStore.UpdateShardIterator "orders" "shardId-000000000001"
                  "it-1" NewLocalStore) in
  (("orders-eu", "shardId-000000000000") <> ("orders", "shardId-000000000001")
   /\ String.length "shardId-000000000000"
      = String.length "shardId-000000000001")
  /\ fst (LocalStore.GetShardIterator "orders" "shardId-000000000001"
            (snd (LocalStore.UpdateShardIterator "orders-eu"
                    "shardId-000000000000" "it-2" s)))
     = ("it-1", None).
Proof.
  cbv zeta.
  assert (Hne : ("orders-eu", "shardId-000000000000")
                <> ("orders", "shardId-000000000001")) by discriminate.
  assert (Hlen : String.length "shardId-000000000000"
                 = String.length "shardId-000000000001") by reflexivity.
  split; [exact (conj Hne Hlen)|].
  rewrite (update_leaves_separable_pairs "orders-eu" "shardId-000000000000"
             "orders" "shardId-000000000001" "it-2" _ Hne
             (or_intror (or_intror Hlen))).
  reflexivity.
Defined.

Lemma applyUpdates_cons (stream shard iterator : string)
  (ops : list (string * string * string)) (s : LocalStore.t) :
  applyUpdates ((stream, shard, iterator) :: ops) s
  = applyUpdates ops
      (snd (LocalStore.UpdateShardIterator stream shard iterator s)).
Proof. reflexivity. Qed.

(** X2. After any history of writes none of which is for another pair
    that is formatted to the same key, a read returns the value most
    recently written for the pair, or what the store held before the
    history when the pair was not written in it (the empty string on a
    new store); the error is nil. *)
Theorem get_returns_last_write_without_collision
  (ops : list (string * string * string)) (stream shard : string)
  (s : LocalStore.t) :
  collisionFree ops stream shard ->
  fst (LocalStore.GetShardIterator stream shard (applyUpdates ops s))
  = (default (position s stream shard) (lastWritten ops stream shard), None).
Proof.
  revert s. induction ops as [|[[st sh] it] ops IH]; intros s Hfree.
  - reflexivity.
  - apply Forall_cons in Hfree as [Hhead Hfree].
    rewrite applyUpdates_cons, (IH _ Hfree). cbn [lastWritten].
    destruct (lastWritten ops stream shard) as [v|]; [reflexivity|].
    unfold pair_eqb. case_bool_decide as Hpair.
    + injection Hpair as -> ->. cbn. unfold position. cbn.
      now rewrite lookup_insert_eq.
    + cbn. unfold position. cbn. rewrite lookup_insert_ne; [reflexivity|].
      intros Heq. apply Hpair. now apply Hhead.
Qed.

Lemma get_returns_last_write_orders :
  let ops := [("orders", "shard-0", "it-0a"); ("orders", "shard-1", "it-1a");
              ("orders", "shard-0", "it-0b")] in
  collisionFree ops "orders" "shard-0"
  /\ fst (LocalStore.GetShardIterator "orders" "shard-0"
            (applyUpdates ops NewLocalStore)) = ("it-0b", None)
  /\ collisionFree ops "billing" "shard-0"
  /\ fst (LocalStore.GetShardIterator "billing" "shard-0"
            (applyUpdates ops NewLocalStore)) = ("", None).
Proof.
  cbv zeta.
  assert (H0 : collisionFree
                 [("orders", "shard-0", "it-0a"); ("orders", "shard-1", "it-1a");
                  ("orders", "shard-0", "it-0b")] "orders" "shard-0").
  { repeat constructor; intros Heq; try reflexivity; vm_compute in Heq;
      discriminate. }
  assert (H1 : collisionFree
                 [("orders", "shard-0", "it-0a"); ("orders", "shard-1", "it-1a");
                  ("orders", "shard-0", "it-0b")] "billing" "shard-0").
  { repeat constructor; intros Heq; vm_compute in Heq; discriminate. }
  split; [exact H0|]. split.
  - rewrite (get_returns_last_write_without_collision _ _ _ _ H0).
    reflexivity.
  - split; [exact H1|].
    rewrite (get_returns_last_write_without_collision _ _ _ _ H1).
    reflexivity.
Defined.

(** ** The local store under concurrent callers, continued *)

(** Tries every pair of positions of the two writers. *)
Ltac writer_positions tac :=
  first
    [ solve [exists Concurrent.AtLock, Concurrent.AtLock; tac]
    | solve [exists Concurrent.AtLock, Concurrent.AtAssign; tac]
    | solve [exists Concurrent.AtLock, Concurrent.AtUnlock; tac]
    | solve [exists Concurrent.AtLock, Concurrent.Finished; tac]
    | solve [exists Concurrent.AtAssign, Concurrent.AtLock; tac]
    | solve [exists Concurrent.AtAssign, Concurrent.Finished; tac]
    | solve [exists Concurrent.AtUnlock, Concurrent.AtLock; tac]
    | solve [exists Concurrent.AtUnlock, Concurrent.Finished; tac]
    | solve [exists Concurrent.Finished, Concurrent.AtLock; tac]
    | solve [exists Concurrent.Finished, Concurrent.AtAssign; tac]
    | solve [exists Concurrent.Finished, Concurrent.AtUnlock; tac]
    | solve [exists Concurrent.Finished, Concurrent.Finished; tac] ].

Lemma writersState_step (m0 : gmap string string) (k0 v0 k1 v1 : string)
  (i : nat) (c c' : Concurrent.config) :
  Concurrent.writersState m0 k0 v0 k1 v1 c ->
  Concurrent.step i c = Some c' ->
  Concurrent.writersState m0 k0 v0 k1 v1 c'.
Proof.
  intros (p0 & p1 & Hgs & Hmutex & Hexcl & Hmap) Hstep.
  unfold Concurrent.step in Hstep. rewrite Hgs, Hmutex in Hstep.
  unfold Concurrent.writersState.
  destruct i as [|[|i]]; [| |destruct p0, p1; discriminate].
  all: destruct p0, p1; cbn in Hstep, Hexcl, Hmap; try discriminate;
    injection Hstep as <-.
  all: writer_positions
         ltac:(cbn; rewrite ?Hmap; repeat split; try reflexivity; auto).
Qed.

Lemma writersState_run (m0 : gmap string string) (k0 v0 k1 v1 : string)
  (schedule : list nat) (c c' : Concurrent.config) :
  Concurrent.writersState m0 k0 v0 k1 v1 c ->
  Concurrent.run schedule c = Some c' ->
  Concurrent.writersState m0 k0 v0 k1 v1 c'.
Proof.
  revert c. induction schedule as [|i schedule IH]; intros c Hinv Hrun.
  - now injection Hrun as <-.
  - cbn in Hrun. destruct (Concurrent.step i c) as [c1|] eqn:Hstep;
      [|discriminate].
    apply (IH c1); [|exact Hrun]. now apply (writersState_step _ _ _ _ _ i c).
Qed.

Lemma writersState_start (store : LocalStore.t)
  (stream0 shard0 iterator0 stream1 shard1 iterator1 : string) :
  Concurrent.writersState (LocalStore.m store)
    (key stream0 shard0) iterator0 (key stream1 shard1) iterator1
    (Concurrent.start store
       [Concurrent.UpdateShardIterator stream0 shard0 iterator0;
        Concurrent.UpdateShardIterator stream1 shard1 iterator1]).
Proof. exists Concurrent.AtLock, Concurrent.AtLock. now repeat split. Qed.

Lemma writersState_no_race (m0 : gmap string string) (k0 v0 k1 v1 : string)
  (c : Concurrent.config) :
  Concurrent.writersState m0 k0 v0 k1 v1 c -> ~ Concurrent.race c.
Proof.
  intros (p0 & p1 & Hgs & _ & Hexcl & _) (i & j & a & b & Hij & Hi & Hj & Hconf).
  unfold Concurrent.next in Hi, Hj. rewrite Hgs in Hi, Hj.
  destruct i as [|[|i]], j as [|[|j]]; try congruence;
    destruct p0, p1; cbn in Hi, Hj, Hexcl; try discriminate;
    injection Hi as <-; injection Hj as <-; discriminate.
Qed.

Lemma writersState_progress (m0 : gmap string string) (k0 v0 k1 v1 : string)
  (c : Concurrent.config) :
  Concurrent.writersState m0 k0 v0 k1 v1 c ->
  (Concurrent.goroutines c = [[]; []] /\ Concurrent.mutex c = false)
  \/ exists i c', Concurrent.step i c = Some c'.
Proof.
  intros (p0 & p1 & Hgs & Hmutex & Hexcl & _).
  destruct p0, p1; cbn in Hgs, Hmutex, Hexcl; try discriminate.
  all: try (left; now split).
  all: right; unfold Concurrent.step; rewrite Hgs, Hmutex.
  all: first [ exists 0; cbn; eexists; reflexivity
             | exists 1; cbn; eexists; reflexivity ].
Qed.

(** X3. Two goroutines in [UpdateShardIterator] on one store, under any
    schedule: their map assignments never race, and the run never
    deadlocks - either both calls have returned with the mutex released,
    or some goroutine can take its next step. *)
Theorem two_writers_neither_race_nor_deadlock
  (stream0 shard0 iterator0 stream1 shard1 iterator1 : string)
  (store : LocalStore.t) (schedule : list nat) (c : Concurrent.config) :
  Concurrent.run schedule
    (Concurrent.start store
       [Concurrent.UpdateShardIterator stream0 shard0 iterator0;
        Concurrent.UpdateShardIterator stream1 shard1 iterator1]) = Some c ->
  ~ Concurrent.race c
  /\ ((Concurrent.goroutines c = [[]; []] /\ Concurrent.mutex c = false)
      \/ exists i c', Concurrent.step i c = Some c').
Proof.
  intros Hrun.
  pose proof (writersState_run _ _ _ _ _ _ _ _
                (writersState_start store stream0 shard0 iterator0
                   stream1 shard1 iterator1) Hrun) as Hinv.
  split.
  - now apply (writersState_no_race _ _ _ _ _ _ Hinv).
  - now apply (writersState_progress _ _ _ _ _ _ Hinv).
Qed.

Lemma two_writers_orders :
  let start :=
    Concurrent.start NewLocalStore
      [Concurrent.UpdateShardIterator "orders" "shard-0" "it-0b";
       Concurrent.UpdateShardIterator "orders" "shard-1" "it-1b"] in
  exists c,
    Concurrent.run [1; 1; 1; 0] start = Some c
    /\ ~ Concurrent.race c
    /\ ((Concurrent.goroutines c = [[]; []] /\ Concurrent.mutex c = false)
        \/ exists i c', Concurrent.step i c = Some c').
Proof.
  cbv zeta.
  set (start := Concurrent.start NewLocalStore
         [Concurrent.UpdateShardIterator "orders" "shard-0" "it-0b";
          Concurrent.UpdateShardIterator "orders" "shard-1" "it-1b"]).
  assert (Hrun : Concurrent.run [1; 1; 1; 0] start
                 = Some (default start (Concurrent.run [1; 1; 1; 0] start)))
    by (vm_compute; reflexivity).
  exists (default start (Concurrent.run [1; 1; 1; 0] start)).
  split; [exact Hrun|].
  exact (two_writers_neither_race_nor_deadlock "orders" "shard-0" "it-0b"
           "orders" "shard-1" "it-1b" NewLocalStore [1; 1; 1; 0] _ Hrun).
Defined.

(** X4. When two goroutines in [UpdateShardIterator] have both returned,
    whatever the schedule was, the map is the one that the two updates
    give when made one after the other, in one of the two orders, and
    the mutex is free. *)
Theorem two_writers_serialise
  (stream0 shard0 iterator0 stream1 shard1 iterator1 : string)
  (store : LocalStore.t) (schedule : list nat) (c : Concurrent.config) :
  Concurrent.run schedule
    (Concurrent.start store
       [Concurrent.UpdateShardIterator stream0 shard0 iterator0;
        Concurrent.UpdateShardIterator stream1 shard1 iterator1]) = Some c ->
  Concurrent.goroutines c = [[]; []] ->
  Concurrent.mutex c = false
  /\ (Concurrent.m c
      = LocalStore.m
          (snd (LocalStore.UpdateShardIterator stream1 shard1 iterator1
                  (snd (LocalStore.UpdateShardIterator stream0 shard0
                          iterator0 store))))
      \/ Concurrent.m c
         = LocalStore.m
             (snd (LocalStore.UpdateShardIterator stream0 shard0 iterator0
                     (snd (LocalStore.UpdateShardIterator stream1 shard1
                             iterator1 store))))).
Proof.
  intros Hrun Hdone.
  destruct (writersState_run _ _ _ _ _ _ _ _
              (writersState_start store stream0 shard0 iterator0
                 stream1 shard1 iterator1) Hrun)
    as (p0 & p1 & Hgs & Hmutex & _ & Hmap).
  rewrite Hdone in Hgs.
  destruct p0, p1; cbn in Hgs; try discriminate.
  split; [exact Hmutex|]. exact Hmap.
Qed.

Lemma two_writers_serialise_orders :
  let start :=
    Concurrent.start NewLocalStore
      [Concurrent.UpdateShardIterator "orders" "shard-0" "it-0b";
       Concurrent.UpdateShardIterator "orders" "shard-0" "it-0c"] in
  exists c,
    (Concurrent.run [1; 1; 1; 0; 0; 0] start = Some c
     /\ Concurrent.goroutines c = [[]; []])
    /\ Concurrent.mutex c = false
    /\ Concurrent.m c !! key "orders" "shard-0" = Some "it-0b".
Proof.
  cbv zeta.
  set (start := Concurrent.start NewLocalStore
         [Concurrent.UpdateShardIterator "orders" "shard-0" "it-0b";
          Concurrent.UpdateShardIterator "orders" "shard-0" "it-0c"]).
  set (c := default start (Concurrent.run [1; 1; 1; 0; 0; 0] start)).
  assert (Hrun : Concurrent.run [1; 1; 1; 0; 0; 0] start = Some c)
    by (vm_compute; reflexivity).
  assert (Hdone : Concurrent.goroutines c = [[]; []])
    by (vm_compute; reflexivity).
  exists c. split; [exact (conj Hrun Hdone)|].
  split.
  - exact (proj1 (two_writers_serialise "orders" "shard-0" "it-0b"
                    "orders" "shard-0" "it-0c" NewLocalStore
                    [1; 1; 1; 0; 0; 0] c Hrun Hdone)).
  - vm_compute. reflexivity.
Defined.

Lemma onlyReads_step (i : nat) (c c' : Concurrent.config) :
  Concurrent.onlyReads c ->
  Concurrent.step i c = Some c' ->
  Concurrent.onlyReads c' /\ Concurrent.m c' = Concurrent.m c
  /\ Concurrent.mutex c' = Concurrent.mutex c.
Proof.
  unfold Concurrent.onlyReads, Concurrent.step. intros Hreads Hstep.
  destruct (Concurrent.goroutines c !! i) as [[|a rest]|] eqn:Hi;
    try discriminate.
  pose proof (Forall_lookup_1 _ _ _ _ Hreads Hi) as Hbody.
  apply Forall_cons in Hbody as [[k ->] Hrest].
  injection Hstep as Hc. subst c'. cbn.
  split; [|now split].
  now apply Forall_insert.
Qed.

Lemma onlyReads_no_race (c : Concurrent.config) :
  Concurrent.onlyReads c -> ~ Concurrent.race c.
Proof.
  unfold Concurrent.onlyReads.
  intros Hreads (i & j & a & b & _ & Hi & Hj & Hconf).
  unfold Concurrent.next in Hi, Hj.
  destruct (Concurrent.goroutines c !! i) as [[|a' resti]|] eqn:Hgi;
    try discriminate.
  destruct (Concurrent.goroutines c !! j) as [[|b' restj]|] eqn:Hgj;
    try discriminate.
  injection Hi as ->. injection Hj as ->.
  pose proof (Forall_lookup_1 _ _ _ _ Hreads Hgi) as Ha.
  pose proof (Forall_lookup_1 _ _ _ _ Hreads Hgj) as Hb.
  apply Forall_cons in Ha as [[ka ->] _].
  apply Forall_cons in Hb as [[kb ->] _]. discriminate.
Qed.

Lemma onlyReads_run (schedule : list nat) (c0 c : Concurrent.config) :
  Concurrent.onlyReads c0 ->
  Concurrent.run schedule c0 = Some c ->
  Concurrent.onlyReads c /\ Concurrent.m c = Concurrent.m c0
  /\ Concurrent.mutex c = Concurrent.mutex c0.
Proof.
  revert c0. induction schedule as [|i schedule IH]; intros c0 Hreads Hrun.
  - injection Hrun as <-. now repeat split.
  - cbn in Hrun. destruct (Concurrent.step i c0) as [c1|] eqn:Hstep;
      [|discriminate].
    destruct (onlyReads_step i c0 c1 Hreads Hstep) as (Hreads1 & Hm & Hmutex).
    destruct (IH c1 Hreads1 Hrun) as (Hreads' & Hm' & Hmutex').
    split; [exact Hreads'|]. split; congruence.
Qed.

(** X5. Any number of goroutines in [GetShardIterator] on one store, with
    no writer: under any schedule no two of them race, the map stays as
    it was and the mutex is never taken. *)
Theorem readers_alone_never_race (pairs : list (string * string))
  (store : LocalStore.t) (schedule : list nat) (c : Concurrent.config) :
  Concurrent.run schedule
    (Concurrent.start store
       (map (fun p => Concurrent.GetShardIterator (fst p) (snd p)) pairs))
  = Some c ->
  ~ Concurrent.race c
  /\ Concurrent.m c = LocalStore.m store
  /\ Concurrent.mutex c = false.
Proof.
  intros Hrun.
  assert (Hstart : Concurrent.onlyReads
            (Concurrent.start store
               (map (fun p => Concurrent.GetShardIterator (fst p) (snd p))
                    pairs))).
  { unfold Concurrent.onlyReads. cbn. apply Forall_forall. intros body Hin.
    apply list_elem_of_In, in_map_iff in Hin as (p & <- & _).
    repeat constructor. now eexists. }
  destruct (onlyReads_run _ _ _ Hstart Hrun) as (Hreads & Hm & Hmutex).
  split; [now apply onlyReads_no_race|]. now split.
Qed.

Lemma readers_alone_orders :
  let start :=
    Concurrent.start NewLocalStore
      (map (fun p => Concurrent.GetShardIterator (fst p) (snd p))
           [("orders", "shard-0"); ("orders", "shard-0");
            ("orders", "shard-1")]) in
  exists c,
    Concurrent.run [2; 0] start = Some c
    /\ ~ Concurrent.race c
    /\ Concurrent.m c = LocalStore.m NewLocalStore
    /\ Concurrent.mutex c = false.
Proof.
  cbv zeta.
  set (start := Concurrent.start NewLocalStore
         (map (fun p => Concurrent.GetShardIterator (fst p) (snd p))
              [("orders", "shard-0"); ("orders", "shard-0");
               ("orders", "shard-1")])).
  assert (Hrun : Concurrent.run [2; 0] start
                 = Some (default start (Concurrent.run [2; 0] start)))
    by (vm_compute; reflexivity).
  exists (default start (Concurrent.run [2; 0] start)).
  split; [exact Hrun|].
  exact (readers_alone_never_race
           [("orders", "shard-0"); ("orders", "shard-0"); ("orders", "shard-1")]
           NewLocalStore [2; 0] _ Hrun).
Defined.

(** ** More on the program against any service and any store *)

Section AnyStoreMore.

Context {Svc St : Type} `{!kinesis.API Svc} `{!Store St}.

Implicit Types (s : Stream) (w : World Svc St) (evs : list Event).

Lemma setInitialIterators_eq s w :
  setInitialIterators s w =
  match forShards (seedShard s) (Shards s) w with
  | (r, w1, e1) => (r, w1, seedingStart ++ e1)
  end.
Proof.
  unfold setInitialIterators, bind, log, emit.
  now destruct (forShards (seedShard s) (Shards s) w) as [[r w1] e1].
Qed.

Lemma tick_eq s w :
  tick s w =
  match forShards (pollShard s) (Shards s) w with
  | (r, w1, e1) => (r, w1, tickStart ++ e1)
  end.
Proof.
  unfold tick, bind, log, emit.
  now destruct (forShards (pollShard s) (Shards s) w) as [[r w1] e1].
Qed.

(** A property of traces that holds of the empty trace, of the trace of
    every step and of the concatenation of two traces that have it holds
    of every run. *)
Lemma forShards_closed (P : list Event -> Prop)
  (body : Shard -> M Svc St error) :
  P [] ->
  (forall evs1 evs2, P evs1 -> P evs2 -> P (evs1 ++ evs2)) ->
  (forall shard w, P (eventsOf (body shard w))) ->
  forall shards w, P (eventsOf (forShards body shards w)).
Proof.
  intros Hnil Happ Hbody shards.
  induction shards as [|shard rest IH]; intros w; [exact Hnil|].
  rewrite forShards_cons. specialize (Hbody shard w).
  destruct (body shard w) as [[[e|] w1] e1]; [exact Hbody|].
  specialize (IH w1). destruct (forShards body rest w1) as [[r w2] e2].
  unfold eventsOf in *. cbn [snd] in *. now apply Happ.
Qed.

Lemma Listen_closed (P : list Event -> Prop) s :
  P [] ->
  (forall evs1 evs2, P evs1 -> P evs2 -> P (evs1 ++ evs2)) ->
  (forall keyvals, P [EvLog keyvals]) ->
  P [EvTick] ->
  (forall shard w, P (eventsOf (seedShard s shard w))) ->
  (forall shard w, P (eventsOf (pollShard s shard w))) ->
  forall n w, P (eventsOf (Listen n s w)).
Proof.
  intros Hnil Happ Hlog Htick Hseed Hpoll n w.
  assert (Hstart : P tickStart).
  { apply (Happ [EvTick]); [exact Htick|apply Hlog]. }
  assert (Hloop : forall k w1, P (eventsOf (listenLoop k s w1))).
  { induction k as [|k IH]; intros w1; [exact Hnil|].
    rewrite listenLoop_S, tick_eq.
    pose proof (forShards_closed P _ Hnil Happ Hpoll (Shards s) w1) as Hbody.
    destruct (forShards (pollShard s) (Shards s) w1) as [[[e|] w2] e2];
      unfold eventsOf in *; cbn [snd] in *.
    - now apply Happ.
    - specialize (IH w2). destruct (listenLoop k s w2) as [[r w3] e3].
      cbn [snd] in *. apply Happ; [now apply Happ|exact IH]. }
  rewrite Listen_eq. destruct (Interval (config s) <=? 0)%Z; [exact Hnil|].
  rewrite setInitialIterators_eq.
  pose proof (forShards_closed P _ Hnil Happ Hseed (Shards s) w) as Hbody.
  destruct (forShards (seedShard s) (Shards s) w) as [[[e|] w1] e1];
    unfold eventsOf in *; cbn [snd] in *.
  - apply Happ; [apply Hlog|exact Hbody].
  - specialize (Hloop n w1). destruct (listenLoop n s w1) as [[r w2] e2].
    cbn [snd] in *. apply Happ; [|exact Hloop].
    apply Happ; [apply Hlog|exact Hbody].
Qed.

(** X6. In every run of [Listen], against any service and any store, the
    batches handed to the handler are exactly the batches that the
    successful fetches returned, in the same order: every fetched batch
    is handed over once, empty ones included, and nothing else is. *)
Theorem handler_gets_every_fetched_batch (n : nat) s w :
  handled (eventsOf (Listen n s w)) = fetchedBatches (eventsOf (Listen n s w)).
Proof.
  apply (Listen_closed (fun evs => handled evs = fetchedBatches evs)).
  - reflexivity.
  - intros evs1 evs2 H1 H2. unfold handled, fetchedBatches in *.
    rewrite !flat_map_app. congruence.
  - reflexivity.
  - reflexivity.
  - intros shard w1. unfold eventsOf. unfold_step. split_calls; reflexivity.
  - intros shard w1. unfold eventsOf. unfold_step. split_calls; reflexivity.
Qed.

(** X7. Every request [Listen] sends carries the configuration: each
    [GetRecords] request has the configured limit and a non-nil
    iterator, and each [GetShardIterator] request has the shard's
    identifier (non-nil), the configured iterator type and the stream
    name. *)
Theorem requests_carry_the_configuration (n : nat) s w :
  Forall (fun input =>
            kinesis.GetRecordsInput.Limit input = Some (Limit (config s))
            /\ is_Some (kinesis.GetRecordsInput.ShardIterator input))
    (fetchRequests (eventsOf (Listen n s w)))
  /\ Forall (fun input =>
               is_Some (kinesis.GetShardIteratorInput.ShardId input)
               /\ kinesis.GetShardIteratorInput.ShardIteratorType input
                  = Some (IteratorType (config s))
               /\ kinesis.GetShardIteratorInput.StreamName input
                  = Some (Name s))
       (seedRequests (eventsOf (Listen n s w))).
Proof.
  apply (Listen_closed
           (fun evs =>
              Forall (fun input =>
                        kinesis.GetRecordsInput.Limit input
                        = Some (Limit (config s))
                        /\ is_Some (kinesis.GetRecordsInput.ShardIterator input))
                (fetchRequests evs)
              /\ Forall (fun input =>
                           is_Some (kinesis.GetShardIteratorInput.ShardId input)
                           /\ kinesis.GetShardIteratorInput.ShardIteratorType
                                input = Some (IteratorType (config s))
                           /\ kinesis.GetShardIteratorInput.StreamName input
                              = Some (Name s))
                   (seedRequests evs))).
  - split; constructor.
  - intros evs1 evs2 [H1 H1'] [H2 H2']. unfold fetchRequests, seedRequests in *.
    rewrite !flat_map_app. split; now apply Forall_app.
  - split; constructor.
  - split; constructor.
  - intros shard w1. unfold eventsOf. unfold_step.
    split_calls; (split; repeat constructor); cbn; eauto.
  - intros shard w1. unfold eventsOf. unfold_step.
    split_calls; (split; repeat constructor); cbn; eauto.
Qed.

Lemma pollShard_no_seeding s shard w :
  seedRequests (eventsOf (pollShard s shard w)) = [].
Proof. unfold eventsOf. unfold_step. split_calls; reflexivity. Qed.

Lemma listenLoop_no_seeding (n : nat) s w :
  seedRequests (eventsOf (listenLoop n s w)) = [].
Proof.
  revert w. induction n as [|n IH]; intros w; [reflexivity|].
  rewrite listenLoop_S, tick_eq.
  pose proof (forShards_closed (fun evs => seedRequests evs = []) _ eq_refl
                ltac:(intros a b Ha Hb; unfold seedRequests in *;
                      rewrite flat_map_app; now rewrite Ha, Hb)
                (pollShard_no_seeding s) (Shards s) w) as Hbody.
  destruct (forShards (pollShard s) (Shards s) w) as [[[e|] w1] e1];
    unfold eventsOf in *; cbn [snd] in *.
  - unfold seedRequests in *. now rewrite flat_map_app, Hbody.
  - specialize (IH w1). destruct (listenLoop n s w1) as [[r w2] e2].
    cbn [snd] in *. unfold seedRequests in *.
    now rewrite !flat_map_app, Hbody, IH.
Qed.

Lemma seeding_requests_in_order s (shards : list Shard) w :
  seedRequests (eventsOf (forShards (seedShard s) shards w))
    `prefix_of` map (seedInput s) shards
  /\ (resultOf (forShards (seedShard s) shards w) = None ->
      seedRequests (eventsOf (forShards (seedShard s) shards w))
      = map (seedInput s) shards).
Proof.
  revert w. induction shards as [|shard rest IH]; intros w.
  - split; [apply prefix_nil|reflexivity].
  - rewrite forShards_cons.
    assert (Hone : seedRequests (eventsOf (seedShard s shard w))
                   = [seedInput s shard]).
    { unfold eventsOf. unfold_step. split_calls; reflexivity. }
    destruct (seedShard s shard w) as [[[e|] w1] e1];
      unfold eventsOf, resultOf in *; cbn [fst snd] in *.
    + rewrite Hone. split; [|discriminate].
      now exists (map (seedInput s) rest).
    + destruct (IH w1) as [Hprefix Hall].
      destruct (forShards (seedShard s) rest w1) as [[r w2] e2].
      cbn [fst snd] in *. unfold seedRequests in *.
      rewrite flat_map_app, Hone. cbn [app map]. split.
      * now apply prefix_cons.
      * intros Hr. now rewrite (Hall Hr).
Qed.

(** X8. Seeding happens once and in directory order: the
    [GetShardIterator] requests of a run of [Listen] are a prefix of the
    requests for the shards in the order of the directory, and when
    [Listen] is waiting for a tick they are exactly one request per
    shard, in that order - no tick ever asks for an iterator again. *)
Theorem seeding_requests_once_in_order (n : nat) s w :
  seedRequests (eventsOf (Listen n s w))
    `prefix_of` map (seedInput s) (Shards s)
  /\ (resultOf (Listen n s w) = Blocked ->
      seedRequests (eventsOf (Listen n s w)) = map (seedInput s) (Shards s)).
Proof.
  rewrite Listen_eq.
  destruct (Interval (config s) <=? 0)%Z;
    [split; [apply prefix_nil|discriminate]|].
  rewrite setInitialIterators_eq.
  destruct (seeding_requests_in_order s (Shards s) w) as [Hprefix Hall].
  destruct (forShards (seedShard s) (Shards s) w) as [[[e|] w1] e1];
    unfold eventsOf, resultOf in *; cbn [fst snd] in *.
  - split; [exact Hprefix|discriminate].
  - pose proof (listenLoop_no_seeding n s w1) as Hloop.
    destruct (listenLoop n s w1) as [[r w2] e2]. unfold eventsOf in Hloop.
    cbn [fst snd] in *.
    assert (Heq : seedRequests ((seedingStart ++ e1) ++ e2)
                  = map (seedInput s) (Shards s)).
    { unfold seedRequests in *.
      rewrite !flat_map_app, Hloop, app_nil_r. now apply Hall. }
    rewrite Heq. split; [reflexivity|intros _; reflexivity].
Qed.

(** *** The order of a tick *)

Lemma pollShard_order s shard w :
  let run := pollShard s shard w in
  polledShards (eventsOf run) `prefix_of` [ID shard]
  /\ storeWrites (eventsOf run) `prefix_of` [(Name s, ID shard)]
  /\ storeReads (eventsOf run) = [(Name s, ID shard)]
  /\ (resultOf run = None ->
      polledShards (eventsOf run) = [ID shard]
      /\ storeWrites (eventsOf run) = [(Name s, ID shard)]
      /\ length (handled (eventsOf run)) = 1).
Proof.
  cbv zeta. unfold eventsOf, resultOf. unfold_step. split_calls.
  all: repeat split; try discriminate; try reflexivity.
  all: first [apply prefix_nil | now exists []].
Qed.

Lemma polling_order s (shards : list Shard) w :
  let run := forShards (pollShard s) shards w in
  polledShards (eventsOf run) `prefix_of` map ID shards
  /\ storeWrites (eventsOf run)
       `prefix_of` map (fun shard => (Name s, ID shard)) shards
  /\ storeReads (eventsOf run)
       `prefix_of` map (fun shard => (Name s, ID shard)) shards
  /\ (resultOf run = None ->
      polledShards (eventsOf run) = map ID shards
      /\ storeWrites (eventsOf run)
         = map (fun shard => (Name s, ID shard)) shards
      /\ storeReads (eventsOf run)
         = map (fun shard => (Name s, ID shard)) shards
      /\ length (handled (eventsOf run)) = length shards).
Proof.
  cbv zeta. revert w. induction shards as [|shard rest IH]; intros w.
  - cbn. repeat split; apply prefix_nil.
  - rewrite forShards_cons.
    pose proof (pollShard_order s shard w) as (P1 & P2 & P3 & P4).
    destruct (pollShard s shard w) as [[[e|] w1] e1];
      unfold eventsOf, resultOf in *; cbn [fst snd] in *.
    + repeat split; try discriminate.
      * now apply (prefix_app_r _ [_]).
      * now apply (prefix_app_r _ [_]).
      * rewrite P3. now exists (map (fun shard => (Name s, ID shard)) rest).
    + destruct (P4 eq_refl) as (Q1 & Q2 & Q4).
      destruct (IH w1) as (I1 & I2 & I3 & I4).
      destruct (forShards (pollShard s) rest w1) as [[r w2] e2].
      cbn [fst snd] in *.
      unfold polledShards, storeWrites, storeReads, handled in *.
      rewrite !flat_map_app, Q1, Q2, P3, length_app, Q4. cbn [app map].
      split; [now apply prefix_cons|]. split; [now apply prefix_cons|].
      split; [now apply prefix_cons|].
      intros Hr. destruct (I4 Hr) as (J1 & J2 & J3 & J4).
      repeat split; cbn; congruence.
Qed.

(** X9. A tick goes through the shards in the order of the directory,
    against any service and any store: the fetches issued, the store
    reads and the store updates of a tick are each a prefix of the
    directory, and in a tick that completes each of them covers the
    whole directory once, with one batch handed to the handler per
    shard. *)
Theorem tick_follows_the_directory s w (r : error) (w' : World Svc St) evs :
  tick s w = (r, w', evs) ->
  polledShards evs `prefix_of` map ID (Shards s)
  /\ storeWrites evs `prefix_of` map (fun shard => (Name s, ID shard)) (Shards s)
  /\ storeReads evs `prefix_of` map (fun shard => (Name s, ID shard)) (Shards s)
  /\ (r = None ->
      polledShards evs = map ID (Shards s)
      /\ storeWrites evs = map (fun shard => (Name s, ID shard)) (Shards s)
      /\ storeReads evs = map (fun shard => (Name s, ID shard)) (Shards s)
      /\ length (handled evs) = length (Shards s)).
Proof.
  rewrite tick_eq. intros Hrun.
  pose proof (polling_order s (Shards s) w) as Horder. cbv zeta in Horder.
  destruct (forShards (pollShard s) (Shards s) w) as [[r1 w1] e1].
  injection Hrun as -> -> <-. exact Horder.
Qed.

(** *** Failures of the other calls *)

Lemma seedShard_quiet s shard w :
  let run := seedShard s shard w in
  fetchRequests (eventsOf run) = [] /\ ticksOf (eventsOf run) = 0
  /\ storeReads (eventsOf run) = [] /\ handled (eventsOf run) = []
  /\ (resultOf run = None ->
      storeWrites (eventsOf run) = [(Name s, ID shard)]).
Proof.
  cbv zeta. unfold eventsOf, resultOf. unfold_step.
  split_calls; repeat split; discriminate.
Qed.

Lemma seeding_quiet s (shards : list Shard) w :
  let run := forShards (seedShard s) shards w in
  fetchRequests (eventsOf run) = [] /\ ticksOf (eventsOf run) = 0
  /\ storeReads (eventsOf run) = [] /\ handled (eventsOf run) = []
  /\ (resultOf run = None ->
      storeWrites (eventsOf run)
      = map (fun shard => (Name s, ID shard)) shards).
Proof.
  cbv zeta. revert w. induction shards as [|shard rest IH]; intros w.
  - now repeat split.
  - rewrite forShards_cons.
    pose proof (seedShard_quiet s shard w) as (P1 & P2 & P3 & P4 & P5).
    destruct (seedShard s shard w) as [[[e|] w1] e1];
      unfold eventsOf, resultOf in *; cbn [fst snd] in *.
    + repeat split; try assumption. discriminate.
    + destruct (IH w1) as (I1 & I2 & I3 & I4 & I5).
      destruct (forShards (seedShard s) rest w1) as [[r w2] e2].
      cbn [fst snd] in *. rewrite ticksOf_app, P2, I2.
      unfold fetchRequests, storeReads, handled, storeWrites in *.
      rewrite !flat_map_app, P1, I1, P3, I3, P4, I4, (P5 eq_refl).
      repeat split. intros Hr. now rewrite (I5 Hr).
Qed.

(** X10. When seeding fails at the [GetShardIterator] request of a shard,
    [Listen] returns that error however many ticks the ticker delivers:
    no tick is taken, nothing is fetched or read from the store or
    handed to the handler; the shards before the failing one have been
    written to the store and stay written, and nothing is written for
    the failing shard or a later one. *)
Theorem seeding_failure_ends_Listen s (pre post : list Shard) (shard : Shard)
  w w1 evs1 (resp : kinesis.GetShardIteratorOutput.t) (e : string)
  (svc2 : Svc) (n : nat) :
  (0 < Interval (config s))%Z ->
  Shards s = pre ++ shard :: post ->
  forShards (seedShard s) pre w = (None, w1, evs1) ->
  kinesis.GetShardIterator (seedInput s shard) (svc w1)
  = ((resp, Some e), svc2) ->
  let evs :=
    seedingStart ++ evs1
    ++ [EvGetShardIterator (seedInput s shard) resp (Some e)] in
  Listen n s w = (Returned (Some e), {| svc := svc2; store := store w1 |}, evs)
  /\ ticksOf evs = 0 /\ fetchRequests evs = []
  /\ storeReads evs = [] /\ handled evs = []
  /\ storeWrites evs = map (fun shard => (Name s, ID shard)) pre.
Proof.
  intros Hpos Hshards Hpre Hcall. cbv zeta.
  pose proof (seeding_quiet s pre w) as Hquiet. cbv zeta in Hquiet.
  rewrite Hpre in Hquiet. unfold eventsOf, resultOf in Hquiet.
  cbn [fst snd] in Hquiet. destruct Hquiet as (Q1 & Q2 & Q3 & Q4 & Q5).
  split.
  - rewrite Listen_eq.
    destruct (Z.leb_spec (Interval (config s)) 0) as [Hle|_]; [lia|].
    rewrite setInitialIterators_eq, Hshards, forShards_app, Hpre.
    rewrite forShards_cons. unfold seedShard at 1, bind at 1.
    unfold svc_GetShardIterator. rewrite Hcall. reflexivity.
  - cbn [seedingStart app ticksOf]. rewrite ticksOf_app, Q2.
    unfold fetchRequests, storeReads, handled, storeWrites in *.
    cbn [flat_map app]. rewrite !flat_map_app, Q1, Q3, Q4, (Q5 eq_refl).
    cbn. now rewrite app_nil_r.
Qed.

(** X11. When, in a tick, the store read for a shard fails, no fetch is
    issued for that shard or for a later one - the service is left as
    the earlier shards left it - and the tick, and with it [Listen],
    returns the store's error. *)
Theorem store_read_failure_stops_the_tick s (pre post : list Shard)
  (shard : Shard) w w1 evs1 (iterator : string) (e : string) (st1 : St) :
  Shards s = pre ++ shard :: post ->
  forShards (pollShard s) pre w = (None, w1, evs1) ->
  GetShardIterator (Name s) (ID shard) (store w1) = ((iterator, Some e), st1) ->
  let evs := tickStart ++ evs1 ++ failedRead s shard iterator (Some e) in
  let w2 := {| svc := svc w1; store := st1 |} in
  tick s w = (Some e, w2, evs)
  /\ (forall n, listenLoop (S n) s w = (Returned (Some e), w2, evs))
  /\ polledShards evs = map ID pre
  /\ length (handled evs) = length pre.
Proof.
  intros Hshards Hpre Hget. cbv zeta.
  pose proof (polling_order s pre w) as Horder. cbv zeta in Horder.
  rewrite Hpre in Horder. unfold eventsOf, resultOf in Horder.
  cbn [fst snd] in Horder. destruct Horder as (_ & _ & _ & Hdone).
  destruct (Hdone eq_refl) as (Q1 & _ & _ & Q4).
  assert (Htick : tick s w
                  = (Some e, {| svc := svc w1; store := st1 |},
                     tickStart ++ evs1 ++ failedRead s shard iterator (Some e))).
  { rewrite tick_eq, Hshards, forShards_app, Hpre, forShards_cons.
    unfold pollShard at 1, bind at 1. unfold store_GetShardIterator.
    rewrite Hget. reflexivity. }
  split; [exact Htick|]. split.
  - intros n. now rewrite listenLoop_S, Htick.
  - unfold polledShards, handled in *. cbn [tickStart flat_map app].
    rewrite !flat_map_app, Q1, length_app, Q4. cbn.
    rewrite app_nil_r. split; [reflexivity|lia].
Qed.

(** X12. When, in a tick, the store update for a shard fails after its
    fetch succeeded, the fetched batch has already been handed to the
    handler: the tick ends right after the failed update and [Listen]
    returns the store's error, with the batch delivered and the
    position not advanced by this call. *)
Theorem store_update_failure_comes_after_dispatch s (pre post : list Shard)
  (shard : Shard) w w1 evs1 (iterator : string) (st1 st3 : St)
  (resp : kinesis.GetRecordsOutput.t) (svc2 : Svc) (e : string) :
  Shards s = pre ++ shard :: post ->
  forShards (pollShard s) pre w = (None, w1, evs1) ->
  GetShardIterator (Name s) (ID shard) (store w1) = ((iterator, None), st1) ->
  kinesis.GetRecords (fetchInput s iterator) (svc w1) = ((resp, None), svc2) ->
  UpdateShardIterator (Name s) (ID shard)
    (aws.StringValue (kinesis.GetRecordsOutput.NextShardIterator resp)) st1
  = (Some e, st3) ->
  let evs := tickStart ++ evs1 ++ failedUpdate s shard iterator resp (Some e) in
  let w2 := {| svc := svc2; store := st3 |} in
  tick s w = (Some e, w2, evs)
  /\ (forall n, listenLoop (S n) s w = (Returned (Some e), w2, evs))
  /\ handled evs = handled evs1 ++ [kinesis.GetRecordsOutput.Records resp]
  /\ polledShards evs = map ID pre ++ [ID shard].
Proof.
  intros Hshards Hpre Hget Hfetch Hupdate. cbv zeta.
  pose proof (polling_order s pre w) as Horder. cbv zeta in Horder.
  rewrite Hpre in Horder. unfold eventsOf, resultOf in Horder.
  cbn [fst snd] in Horder. destruct Horder as (_ & _ & _ & Hdone).
  destruct (Hdone eq_refl) as (Q1 & _ & _ & _).
  assert (Htick : tick s w
                  = (Some e, {| svc := svc2; store := st3 |},
                     tickStart ++ evs1
                     ++ failedUpdate s shard iterator resp (Some e))).
  { rewrite tick_eq, Hshards, forShards_app, Hpre, forShards_cons.
    unfold_step. rewrite Hget. cbn. rewrite Hfetch. cbn.
    now rewrite Hupdate. }
  split; [exact Htick|]. split.
  - intros n. now rewrite listenLoop_S, Htick.
  - unfold polledShards, handled in *. cbn [tickStart flat_map app].
    rewrite !flat_map_app, Q1. now split.
Qed.

(** *** Construction that succeeds, construction that panics *)

Lemma makeShards_ranges (acc : list Shard) (from : list kinesis.Shard.t) :
  forallb hasRange from = true ->
  makeShards acc from = Return (acc ++ map shardOf from).
Proof.
  revert acc. induction from as [|shard rest IH]; intros acc Hall.
  - cbn. now rewrite app_nil_r.
  - cbn in Hall. apply andb_prop in Hall as [Hhead Hrest].
    cbn [makeShards map]. unfold hasRange in Hhead.
    destruct (kinesis.Shard.SequenceNumberRange shard) as [range|] eqn:Hrange;
      [|discriminate].
    assert (Hshard :
              {| ID := aws.StringValue (kinesis.Shard.ShardId shard);
                 StartAt :=
                   aws.StringValue
                     (kinesis.SequenceNumberRange.StartingSequenceNumber
                        range) |} = shardOf shard).
    { unfold shardOf. now rewrite Hrange. }
    rewrite Hshard, (IH _ Hrest), <- app_assoc. reflexivity.
Qed.

Lemma makeShards_no_range (acc : list Shard) (from : list kinesis.Shard.t) :
  forallb hasRange from = false ->
  exists msg, makeShards acc from = Panic msg.
Proof.
  revert acc. induction from as [|shard rest IH]; intros acc Hsome;
    [discriminate|].
  cbn in Hsome. cbn [makeShards]. unfold hasRange in Hsome at 1.
  destruct (kinesis.Shard.SequenceNumberRange shard) as [range|];
    [|now eexists].
  now apply IH.
Qed.

(** X13. When the describe call succeeds with a description that lists
    at least one shard and every listed shard has a sequence-number
    range, [NewStream] returns a handle and a nil error: the handle's
    shards are the listed shards in the listed order, with identifier and
    starting sequence number read through [aws.StringValue], its logger
    is the no-op logger, and it has the given configuration and name;
    the store is not touched. *)
Theorem NewStream_builds_the_directory (endpoint stream : string)
  (cfg : Config) w (resp : kinesis.DescribeStreamOutput.t)
  (description : kinesis.StreamDescription.t) (svc' : Svc) :
  kinesis.DescribeStream (describeInput stream) (svc w)
  = ((resp, None), svc') ->
  kinesis.DescribeStreamOutput.StreamDescription resp = Some description ->
  kinesis.StreamDescription.Shards description <> [] ->
  forallb hasRange (kinesis.StreamDescription.Shards description) = true ->
  NewStream endpoint stream cfg w
  = (Return
       (Some {| Shards :=
                  map shardOf (kinesis.StreamDescription.Shards description);
                Logger := noOpLogger; config := cfg; Name := stream |},
        None),
     {| svc := svc'; store := store w |},
     [EvDescribeStream (describeInput stream) resp None]).
Proof.
  intros Hcall Hdesc Hsome Hranges.
  unfold NewStream, bind, svc_DescribeStream, ret.
  fold (describeInput stream). rewrite Hcall. cbn [fst snd].
  rewrite Hdesc, (makeShards_ranges [] _ Hranges). cbn [app].
  destruct (kinesis.StreamDescription.Shards description) as [|shard rest];
    [contradiction|reflexivity].
Qed.

(** X14. When the describe call succeeds but its response has no stream
    description, or lists a shard without a sequence-number range (even
    among shards that have one), [NewStream] panics on the nil pointer:
    it returns neither a handle nor an error; the store is not
    touched. *)
Theorem NewStream_panics_on_a_missing_range (endpoint stream : string)
  (cfg : Config) w (resp : kinesis.DescribeStreamOutput.t) (svc' : Svc) :
  kinesis.DescribeStream (describeInput stream) (svc w)
  = ((resp, None), svc') ->
  match kinesis.DescribeStreamOutput.StreamDescription resp with
  | None => True
  | Some description =>
      forallb hasRange (kinesis.StreamDescription.Shards description) = false
  end ->
  exists msg,
    NewStream endpoint stream cfg w
    = (Panic msg, {| svc := svc'; store := store w |},
       [EvDescribeStream (describeInput stream) resp None]).
Proof.
  intros Hcall Hbad.
  unfold NewStream, bind, svc_DescribeStream, ret.
  fold (describeInput stream). rewrite Hcall. cbn [fst snd].
  destruct (kinesis.DescribeStreamOutput.StreamDescription resp) as [d|];
    [|now eexists].
  destruct (makeShards_no_range [] _ Hbad) as [msg ->]. now exists msg.
Qed.

Lemma NewStream_result (endpoint stream : string) (cfg : Config) w :
  let run := NewStream endpoint stream cfg w in
  store (worldOf run) = store w
  /\ ticksOf (eventsOf run) = 0
  /\ match resultOf run with
     | Return (Some k, err) =>
         err = None /\ Shards k <> [] /\ config k = cfg /\ Name k = stream
     | Return (None, err) => err <> None
     | Panic _ => True
     end.
Proof.
  cbv zeta. unfold NewStream, bind, svc_DescribeStream, ret.
  destruct (kinesis.DescribeStream _ (svc w)) as [[resp [e|]] svc'];
    unfold worldOf, eventsOf, resultOf; cbn [fst snd].
  - cbn. repeat split. discriminate.
  - destruct (kinesis.DescribeStreamOutput.StreamDescription resp) as [d|];
      [|cbn; now repeat split].
    destruct (makeShards [] (kinesis.StreamDescription.Shards d))
      as [shards|msg]; [|cbn; now repeat split].
    destruct shards as [|shard shards]; cbn; repeat split; discriminate.
Qed.

(** X15. [NewStream] returns a handle exactly when it returns a nil
    error: a returned handle comes with a nil error, has at least one
    shard and carries the given configuration and name, and a nil handle
    comes with a non-nil error. *)
Theorem NewStream_returns_a_handle_or_an_error (endpoint stream : string)
  (cfg : Config) w (handle : option Stream) (err : error)
  (w' : World Svc St) evs :
  NewStream endpoint stream cfg w = (Return (handle, err), w', evs) ->
  match handle with
  | Some k =>
      err = None /\ Shards k <> [] /\ config k = cfg /\ Name k = stream
  | None => err <> None
  end.
Proof.
  intros Hrun. pose proof (NewStream_result endpoint stream cfg w) as Hres.
  cbv zeta in Hres. rewrite Hrun in Hres. unfold resultOf in Hres.
  cbn [fst snd] in Hres. destruct Hres as (_ & _ & Hres).
  now destruct handle.
Qed.

End AnyStoreMore.

(** ** More on the program on the local store *)

Section OnLocalStoreMore.

Context {Svc : Type} `{!kinesis.API Svc}.

Implicit Types (s : Stream) (w : World Svc LocalStore.t) (evs : list Event).

(** X16. Construction followed by seeding, on an empty local store: when
    the description lists at least one shard, every listed shard has a
    range and the listed identifiers are distinct, [NewStream] returns a
    handle, and seeding that handle without error sends one request per
    listed shard, in the listed order - a nil identifier is sent as the
    empty string - and leaves exactly one entry per listed shard, under
    the key of the stream and the identifier. *)
Theorem construction_then_seeding (endpoint stream : string) (cfg : Config) w
  (resp : kinesis.DescribeStreamOutput.t)
  (description : kinesis.StreamDescription.t) (svc' : Svc) w2 evs :
  let listed := kinesis.StreamDescription.Shards description in
  let s := {| Shards := map shardOf listed; Logger := noOpLogger;
              config := cfg; Name := stream |} in
  kinesis.DescribeStream (describeInput stream) (svc w)
  = ((resp, None), svc') ->
  kinesis.DescribeStreamOutput.StreamDescription resp = Some description ->
  listed <> [] ->
  forallb hasRange listed = true ->
  NoDup (map (fun shard => aws.StringValue (kinesis.Shard.ShardId shard))
           listed) ->
  LocalStore.m (store w) = ∅ ->
  setInitialIterators s (worldOf (NewStream endpoint stream cfg w))
  = (None, w2, evs) ->
  resultOf (NewStream endpoint stream cfg w) = Return (Some s, None)
  /\ seedRequests evs = map (describedSeedInput stream cfg) listed
  /\ dom (LocalStore.m (store w2))
     = list_to_set
         (map (fun shard =>
                 key stream (aws.StringValue (kinesis.Shard.ShardId shard)))
              listed)
  /\ size (LocalStore.m (store w2)) = length listed.
Proof.
  cbv zeta. intros Hcall Hdesc Hsome Hranges Hnodup Hempty.
  assert (Hnew : NewStream endpoint stream cfg w
                 = (Return
                      (Some {| Shards :=
                                 map shardOf
                                   (kinesis.StreamDescription.Shards
                                      description);
                               Logger := noOpLogger; config := cfg;
                               Name := stream |}, None),
                    {| svc := svc'; store := store w |},
                    [EvDescribeStream (describeInput stream) resp None])).
  { unfold NewStream, bind, svc_DescribeStream, ret.
    fold (describeInput stream). rewrite Hcall. cbn [fst snd].
    rewrite Hdesc, (makeShards_ranges [] _ Hranges). cbn [app].
    destruct (kinesis.StreamDescription.Shards description) as [|shard rest];
      [contradiction|reflexivity]. }
  rewrite Hnew. unfold worldOf, resultOf. cbn [fst snd].
  rewrite setInitialIterators_eq.
  set (s := {| Shards := map shardOf
                           (kinesis.StreamDescription.Shards description);
               Logger := noOpLogger; config := cfg; Name := stream |}).
  set (w1 := {| svc := svc'; store := store w |}).
  destruct (forShards (seedShard s) (Shards s) w1) as [[r w3] e3] eqn:Hloop.
  intros Hrun. injection Hrun as -> -> <-.
  assert (Hids : map ID (Shards s)
                 = map (fun shard =>
                          aws.StringValue (kinesis.Shard.ShardId shard))
                     (kinesis.StreamDescription.Shards description)).
  { subst s. cbn. now rewrite map_map. }
  split; [reflexivity|]. split; [|split].
  - destruct (seeding_requests_in_order s (Shards s) w1) as [_ Hall].
    rewrite Hloop in Hall. unfold eventsOf, resultOf in Hall.
    cbn [fst snd] in Hall.
    unfold seedRequests in *. cbn [seedingStart flat_map app].
    rewrite (Hall eq_refl). subst s. cbn. now rewrite map_map.
  - rewrite (seeding_dom s (Shards s) w1 w2 e3 Hloop). subst w1. cbn [store].
    rewrite Hempty, dom_empty_L, (left_id_L ∅ (∪)). subst s. cbn.
    now rewrite map_map.
  - rewrite (seeding_size s (Shards s) w1 w2 e3); [| | |exact Hloop].
    + subst w1. cbn [store]. rewrite Hempty, map_size_empty.
      subst s. cbn. now rewrite length_map.
    + now rewrite Hids.
    + intros shard _. subst w1. cbn [store]. rewrite Hempty.
      apply lookup_empty.
Qed.


Lemma seedShard_frame s shard w (k : string) :
  k <> key (Name s) (ID shard) ->
  LocalStore.m (store (worldOf (seedShard s shard w))) !! k
  = LocalStore.m (store w) !! k.
Proof.
  intros Hne. rewrite seedShard_local.
  destruct (kinesis.GetShardIterator (seedInput s shard) (svc w))
    as [[resp [e|]] svc']; unfold worldOf; cbn; [reflexivity|].
  now apply lookup_insert_ne.
Qed.

Lemma pollShard_frame s shard w (k : string) :
  k <> key (Name s) (ID shard) ->
  LocalStore.m (store (worldOf (pollShard s shard w))) !! k
  = LocalStore.m (store w) !! k.
Proof.
  intros Hne. rewrite pollShard_local. cbv zeta.
  destruct (kinesis.GetRecords _ (svc w)) as [[resp [e|]] svc'];
    unfold worldOf; cbn; [reflexivity|].
  now apply lookup_insert_ne.
Qed.

Lemma forShards_frame (body : Shard -> M Svc LocalStore.t error) s
  (shards : list Shard) (k : string) :
  (forall shard w, In shard shards ->
     LocalStore.m (store (worldOf (body shard w))) !! k
     = LocalStore.m (store w) !! k) ->
  forall w,
    LocalStore.m (store (worldOf (forShards body shards w))) !! k
    = LocalStore.m (store w) !! k.
Proof.
  induction shards as [|shard rest IH]; intros Hbody w; [reflexivity|].
  rewrite forShards_cons.
  pose proof (Hbody shard w (or_introl eq_refl)) as Hone.
  destruct (body shard w) as [[[e|] w1] e1]; [exact Hone|].
  assert (Hrest : forall shard' w', In shard' rest ->
            LocalStore.m (store (worldOf (body shard' w'))) !! k
            = LocalStore.m (store w') !! k).
  { intros shard' w' Hin. apply Hbody. now right. }
  specialize (IH Hrest w1).
  destruct (forShards body rest w1) as [[r w2] e2].
  unfold worldOf in *. cbn [fst snd] in *. congruence.
Qed.

(** X18. [Listen] writes only the keys of its own shards: whatever the
    run does, every entry of the local store under a key that is not
    the key of the stream and one of its shards is left as it was. *)
Theorem Listen_leaves_other_keys (n : nat) s w (k : string) :
  (forall shard, In shard (Shards s) -> k <> key (Name s) (ID shard)) ->
  LocalStore.m (store (worldOf (Listen n s w))) !! k
  = LocalStore.m (store w) !! k.
Proof.
  intros Hother.
  assert (Hseed : forall w0,
            LocalStore.m (store (worldOf (forShards (seedShard s) (Shards s) w0)))
              !! k = LocalStore.m (store w0) !! k).
  { apply (forShards_frame _ s). intros shard w0 Hin.
    now apply seedShard_frame, Hother. }
  assert (Hpoll : forall w0,
            LocalStore.m (store (worldOf (forShards (pollShard s) (Shards s) w0)))
              !! k = LocalStore.m (store w0) !! k).
  { apply (forShards_frame _ s). intros shard w0 Hin.
    now apply pollShard_frame, Hother. }
  assert (Hloop : forall m w0,
            LocalStore.m (store (worldOf (listenLoop m s w0))) !! k
            = LocalStore.m (store w0) !! k).
  { induction m as [|m IH]; intros w0; [reflexivity|].
    rewrite listenLoop_S, tick_eq. specialize (Hpoll w0).
    destruct (forShards (pollShard s) (Shards s) w0) as [[[e|] w1] e1];
      [exact Hpoll|].
    specialize (IH w1). destruct (listenLoop m s w1) as [[r w2] e2].
    unfold worldOf in *. cbn [fst snd] in *. congruence. }
  rewrite Listen_eq. destruct (Interval (config s) <=? 0)%Z; [reflexivity|].
  rewrite setInitialIterators_eq. specialize (Hseed w).
  destruct (forShards (seedShard s) (Shards s) w) as [[[e|] w1] e1];
    [exact Hseed|].
  specialize (Hloop n w1). destruct (listenLoop n s w1) as [[r w2] e2].
  unfold worldOf in *. cbn [fst snd] in *. congruence.
Qed.


End OnLocalStoreMore.

(** ** The further properties on the scenario of the specification *)

(** X9 on the scenario: the first tick polls shard-0 and then shard-1. *)
Lemma tick_follows_the_directory_orders :
  let w := worldOf (setInitialIterators orders (freshWorld ordersScript)) in
  let run := tick orders w in
  tick orders w = (None, worldOf run, eventsOf run)
  /\ polledShards (eventsOf run) = ["shard-0"; "shard-1"]
  /\ storeWrites (eventsOf run)
     = [("orders", "shard-0"); ("orders", "shard-1")]
  /\ length (handled (eventsOf run)) = 2.
Proof.
  cbv zeta.
  set (w := worldOf (setInitialIterators orders (freshWorld ordersScript))).
  assert (Hrun : tick orders w
                 = (None, worldOf (tick orders w), eventsOf (tick orders w)))
    by (vm_compute; reflexivity).
  destruct (tick_follows_the_directory orders w _ _ _ Hrun)
    as (_ & _ & _ & Hdone).
  destruct (Hdone eq_refl) as (H1 & H2 & _ & H4).
  exact (conj Hrun (conj H1 (conj H2 H4))).
Defined.

(** X10 on a run whose second seeding request fails. *)
Lemma seeding_failure_orders :
  let w := freshWorld unseededScript in
  let first := forShards (seedShard orders) [shard0] w in
  let call := kinesis.GetShardIterator (seedInput orders shard1)
                (svc (worldOf first)) in
  ((0 < Interval (config orders))%Z
   /\ Shards orders = [shard0] ++ shard1 :: []
   /\ forShards (seedShard orders) [shard0] w
      = (None, worldOf first, eventsOf first)
   /\ call = ((fst (fst call), Some "no such shard"), snd call))
  /\ resultOf (Listen 3 orders w) = Returned (Some "no such shard")
  /\ ticksOf (eventsOf (Listen 3 orders w)) = 0
  /\ storeWrites (eventsOf (Listen 3 orders w)) = [("orders", "shard-0")]
  /\ position (store (worldOf (Listen 3 orders w))) "orders" "shard-0"
     = "it-0a".
Proof.
  cbv zeta.
  set (w := freshWorld unseededScript).
  set (first := forShards (seedShard orders) [shard0] w).
  set (call := kinesis.GetShardIterator (seedInput orders shard1)
                 (svc (worldOf first))).
  assert (Hpos : (0 < Interval (config orders))%Z) by reflexivity.
  assert (Hshards : Shards orders = [shard0] ++ shard1 :: []) by reflexivity.
  assert (Hpre : forShards (seedShard orders) [shard0] w
                 = (None, worldOf first, eventsOf first))
    by (vm_compute; reflexivity).
  assert (Hcall : call = ((fst (fst call), Some "no such shard"), snd call))
    by (vm_compute; reflexivity).
  destruct (seeding_failure_ends_Listen orders [shard0] [] shard1 w
              (worldOf first) (eventsOf first) _ "no such shard" _ 3
              Hpos Hshards Hpre Hcall)
    as (HListen & Hticks & _ & _ & _ & Hwrites).
  split; [exact (conj Hpos (conj Hshards (conj Hpre Hcall)))|].
  rewrite HListen. unfold resultOf, eventsOf, worldOf. cbn [fst snd].
  split; [reflexivity|]. split; [exact Hticks|]. split; [exact Hwrites|].
  vm_compute. reflexivity.
Defined.

(** X11 on the scenario with a store that fails its third operation: the
    first tick's read for shard-0. *)
Lemma store_read_failure_orders :
  let w := worldOf (setInitialIterators orders (quotaWorld ordersScript 2)) in
  let w2 := {| svc := svc w; store := store w |} in
  (Shards orders = [] ++ shard0 :: [shard1]
   /\ forShards (pollShard orders) [] w = (None, w, [])
   /\ GetShardIterator (Name orders) (ID shard0) (store w)
      = (("", Some "store unavailable"), store w))
  /\ tick orders w
     = (Some "store unavailable", w2,
        tickStart ++ [] ++ failedRead orders shard0 "" (Some "store unavailable"))
  /\ polledShards (eventsOf (tick orders w)) = [].
Proof.
  cbv zeta.
  set (w := worldOf (setInitialIterators orders (quotaWorld ordersScript 2))).
  assert (Hshards : Shards orders = [] ++ shard0 :: [shard1]) by reflexivity.
  assert (Hpre : forShards (pollShard orders) [] w = (None, w, []))
    by reflexivity.
  assert (Hget : GetShardIterator (Name orders) (ID shard0) (store w)
                 = (("", Some "store unavailable"), store w))
    by (vm_compute; reflexivity).
  destruct (store_read_failure_stops_the_tick orders [] [shard1] shard0 w w []
              "" "store unavailable" (store w) Hshards Hpre Hget)
    as (Htick & _ & Hpolled & _).
  split; [exact (conj Hshards (conj Hpre Hget))|].
  split; [exact Htick|]. rewrite Htick. exact Hpolled.
Defined.

(** X12 on the scenario with a store that fails its fourth operation: the
    first tick's update for shard-0, after its three records were handed
    over. *)
Lemma store_update_failure_orders :
  let w := worldOf (setInitialIterators orders (quotaWorld ordersScript 3)) in
  let read := GetShardIterator (Name orders) (ID shard0) (store w) in
  let call := kinesis.GetRecords (fetchInput orders "it-0a") (svc w) in
  let resp := fst (fst call) in
  let update :=
    UpdateShardIterator (Name orders) (ID shard0)
      (aws.StringValue (kinesis.GetRecordsOutput.NextShardIterator resp))
      (snd read) in
  (Shards orders = [] ++ shard0 :: [shard1]
   /\ forShards (pollShard orders) [] w = (None, w, [])
   /\ read = (("it-0a", None), snd read)
   /\ call = ((resp, None), snd call)
   /\ update = (Some "store unavailable", snd update))
  /\ resultOf (tick orders w) = Some "store unavailable"
  /\ handled (eventsOf (tick orders w))
     = [[record "1"; record "2"; record "3"]]
  /\ polledShards (eventsOf (tick orders w)) = ["shard-0"].
Proof.
  cbv zeta.
  set (w := worldOf (setInitialIterators orders (quotaWorld ordersScript 3))).
  set (read := GetShardIterator (Name orders) (ID shard0) (store w)).
  set (call := kinesis.GetRecords (fetchInput orders "it-0a") (svc w)).
  set (update :=
         UpdateShardIterator (Name orders) (ID shard0)
           (aws.StringValue
              (kinesis.GetRecordsOutput.NextShardIterator (fst (fst call))))
           (snd read)).
  assert (Hshards : Shards orders = [] ++ shard0 :: [shard1]) by reflexivity.
  assert (Hpre : forShards (pollShard orders) [] w = (None, w, []))
    by reflexivity.
  assert (Hget : read = (("it-0a", None), snd read))
    by (vm_compute; reflexivity).
  assert (Hfetch : call = ((fst (fst call), None), snd call))
    by (vm_compute; reflexivity).
  assert (Hupdate : update = (Some "store unavailable", snd update))
    by (vm_compute; reflexivity).
  destruct (store_update_failure_comes_after_dispatch orders [] [shard1]
              shard0 w w [] "it-0a" (snd read) (snd update) (fst (fst call))
              (snd call) "store unavailable" Hshards Hpre Hget Hfetch Hupdate)
    as (Htick & _ & Hhandled & Hpolled).
  split; [exact (conj Hshards (conj Hpre (conj Hget (conj Hfetch Hupdate))))|].
  rewrite Htick. unfold resultOf, eventsOf. cbn [fst snd].
  split; [reflexivity|]. split; [|exact Hpolled].
  rewrite Hhandled. vm_compute. reflexivity.
Defined.

(** X13 on the scenario: the handle for "orders". *)
Lemma NewStream_orders :
  let w := freshWorld ordersScript in
  (kinesis.DescribeStream (describeInput "orders") (svc w)
   = ((ordersDescription, None),
      snd (kinesis.DescribeStream (describeInput "orders") (svc w)))
   /\ forallb hasRange
        [ {| kinesis.Shard.ShardId := Some "shard-0";
             kinesis.Shard.SequenceNumberRange :=
               Some {| kinesis.SequenceNumberRange.StartingSequenceNumber :=
                         Some "1" |} |};
          {| kinesis.Shard.ShardId := Some "shard-1";
             kinesis.Shard.SequenceNumberRange :=
               Some {| kinesis.SequenceNumberRange.StartingSequenceNumber :=
                         Some "1" |} |} ] = true)
  /\ resultOf (NewStream "endpoint" "orders" ordersConfig w)
     = Return (Some orders, None).
Proof.
  cbv zeta.
  assert (Hcall : kinesis.DescribeStream (describeInput "orders")
                    (svc (freshWorld ordersScript))
                  = ((ordersDescription, None),
                     snd (kinesis.DescribeStream (describeInput "orders")
                            (svc (freshWorld ordersScript)))))
    by reflexivity.
  assert (Hranges : forallb hasRange
            [ {| kinesis.Shard.ShardId := Some "shard-0";
                 kinesis.Shard.SequenceNumberRange :=
                   Some {| kinesis.SequenceNumberRange.StartingSequenceNumber :=
                             Some "1" |} |};
              {| kinesis.Shard.ShardId := Some "shard-1";
                 kinesis.Shard.SequenceNumberRange :=
                   Some {| kinesis.SequenceNumberRange.StartingSequenceNumber :=
                             Some "1" |} |} ] = true) by reflexivity.
  split; [exact (conj Hcall Hranges)|].
  rewrite (NewStream_builds_the_directory "endpoint" "orders" ordersConfig
             (freshWorld ordersScript) ordersDescription _ _ Hcall eq_refl
             ltac:(discriminate) Hranges).
  reflexivity.
Defined.

(** X14 on a description whose second shard has no range. *)
Lemma NewStream_rangeless :
  let w := freshWorld rangelessScript in
  kinesis.DescribeStream (describeInput "orders") (svc w)
  = ((rangelessDescription, None),
     snd (kinesis.DescribeStream (describeInput "orders") (svc w)))
  /\ exists msg,
       NewStream "endpoint" "orders" ordersConfig w
       = (Panic msg,
          {| svc := snd (kinesis.DescribeStream (describeInput "orders")
                           (svc w));
             store := store w |},
          [EvDescribeStream (describeInput "orders") rangelessDescription
             None]).
Proof.
  cbv zeta.
  assert (Hcall : kinesis.DescribeStream (describeInput "orders")
                    (svc (freshWorld rangelessScript))
                  = ((rangelessDescription, None),
                     snd (kinesis.DescribeStream (describeInput "orders")
                            (svc (freshWorld rangelessScript)))))
    by reflexivity.
  split; [exact Hcall|].
  exact (NewStream_panics_on_a_missing_range "endpoint" "orders" ordersConfig
           (freshWorld rangelessScript) rangelessDescription _ Hcall eq_refl).
Defined.

(** X15 on the scenarios: a handle with a nil error, a nil handle with an
    error. *)
Lemma NewStream_handle_or_error_orders :
  let full := NewStream "endpoint" "orders" ordersConfig
                (freshWorld ordersScript) in
  let none := NewStream "endpoint" "orders" ordersConfig
                (freshWorld emptyScript) in
  (full = (Return (Some orders, None), worldOf full, eventsOf full)
   /\ none = (Return (None, Some "kcl: stream has 0 shards"), worldOf none,
              eventsOf none))
  /\ ((None : error) = None /\ Shards orders <> []
      /\ config orders = ordersConfig
      /\ Name orders = "orders")
  /\ Some "kcl: stream has 0 shards" <> None.
Proof.
  cbv zeta.
  assert (Hfull : NewStream "endpoint" "orders" ordersConfig
                    (freshWorld ordersScript)
                  = (Return (Some orders, None),
                     worldOf (NewStream "endpoint" "orders" ordersConfig
                                (freshWorld ordersScript)),
                     eventsOf (NewStream "endpoint" "orders" ordersConfig
                                 (freshWorld ordersScript))))
    by (vm_compute; reflexivity).
  assert (Hnone : NewStream "endpoint" "orders" ordersConfig
                    (freshWorld emptyScript)
                  = (Return (None, Some "kcl: stream has 0 shards"),
                     worldOf (NewStream "endpoint" "orders" ordersConfig
                                (freshWorld emptyScript)),
                     eventsOf (NewStream "endpoint" "orders" ordersConfig
                                 (freshWorld emptyScript))))
    by (vm_compute; reflexivity).
  split; [exact (conj Hfull Hnone)|]. split.
  - exact (NewStream_returns_a_handle_or_an_error _ _ _ _ _ _ _ _ Hfull).
  - exact (NewStream_returns_a_handle_or_an_error _ _ _ _ _ _ _ _ Hnone).
Defined.

(** X16 on the scenario: construction and seeding from the description of
    "orders". *)
Lemma construction_then_seeding_orders :
  let w := freshWorld ordersScript in
  let seeding :=
    setInitialIterators orders
      (worldOf (NewStream "endpoint" "orders" ordersConfig w)) in
  (kinesis.DescribeStream (describeInput "orders") (svc w)
   = ((ordersDescription, None),
      snd (kinesis.DescribeStream (describeInput "orders") (svc w)))
   /\ NoDup (map (fun shard => aws.StringValue (kinesis.Shard.ShardId shard))
               ordersListed)
   /\ seeding = (None, worldOf seeding, eventsOf seeding))
  /\ resultOf (NewStream "endpoint" "orders" ordersConfig w)
     = Return (Some orders, None)
  /\ seedRequests (eventsOf seeding)
     = map (describedSeedInput "orders" ordersConfig) ordersListed
  /\ size (LocalStore.m (store (worldOf seeding))) = 2.
Proof.
  cbv zeta.
  set (w := freshWorld ordersScript).
  set (seeding := setInitialIterators orders
                    (worldOf (NewStream "endpoint" "orders" ordersConfig w))).
  assert (Hcall : kinesis.DescribeStream (describeInput "orders") (svc w)
                  = ((ordersDescription, None),
                     snd (kinesis.DescribeStream (describeInput "orders")
                            (svc w)))) by reflexivity.
  assert (Hnodup : NoDup
            (map (fun shard => aws.StringValue (kinesis.Shard.ShardId shard))
               ordersListed))
    by (apply (bool_decide_unpack _); vm_compute; exact I).
  assert (Hrun : seeding = (None, worldOf seeding, eventsOf seeding))
    by (vm_compute; reflexivity).
  destruct (construction_then_seeding "endpoint" "orders" ordersConfig w
              ordersDescription
              {| kinesis.StreamDescription.Shards := ordersListed |}
              _ (worldOf seeding) (eventsOf seeding)
              Hcall eq_refl ltac:(discriminate) eq_refl Hnodup eq_refl Hrun)
    as (Hnew & Hreq & _ & Hsize).
  split; [exact (conj Hcall (conj Hnodup Hrun))|].
  split; [exact Hnew|]. split; [exact Hreq|exact Hsize].
Defined.


(** X18 on the scenario: an entry of another stream survives the run. *)
Lemma Listen_leaves_other_keys_orders :
  let w := {| svc := ordersScript;
              store := written (key "billing" "shard-0") "it-b"
                         NewLocalStore |} in
  (forall shard, In shard (Shards orders) ->
     key "billing" "shard-0" <> key (Name orders) (ID shard))
  /\ LocalStore.m (store (worldOf (Listen 2 orders w)))
       !! key "billing" "shard-0" = Some "it-b".
Proof.
  cbv zeta.
  assert (Hother : forall shard, In shard (Shards orders) ->
            key "billing" "shard-0" <> key (Name orders) (ID shard)).
  { intros shard [<-|[<-|[]]]; discriminate. }
  split; [exact Hother|].
  rewrite (Listen_leaves_other_keys 2 orders _ _ Hother).
  reflexivity.
Defined.

(** X19 on the scenario: with the stream "orders" in the environment the
    example program is polling after one tick and has panicked with
    "throttled" after two; without a session it panics at once. *)
Example main_orders :
  resultOf (main None exampleEnv 1 ordersScript) = Polling
  /\ resultOf (main None exampleEnv 2 ordersScript) = MainPanicked "throttled"
  /\ resultOf (main (Some "no credentials") exampleEnv 2 ordersScript)
     = MainPanicked "no credentials"
  /\ resultOf (main None exampleEnv 2 emptyScript)
     = MainPanicked "kcl: stream has 0 shards".
Proof. vm_compute. repeat split. Qed.
